(** * The model node of the editing engine (engine/model/node)

    A shallow embedding of the [Node] class: its position accessors, its
    ancestor walks and its attribute map, over an explicit object store.

    JavaScript objects are compared by identity and [parent] is a mutable
    reference, so the tree is a store from references to objects; the
    [while] loops that climb the [parent] chain take fuel, because nothing
    in the class prevents a cyclic chain. *)

From Stdlib Require Import ZArith QArith Lia Ascii String.
From stdpp Require Import gmap strings list fin_maps.

Close Scope Q_scope.

Local Open Scope string_scope.
Local Open Scope list_scope.

(** ** Values and results *)

(** Attribute values ([*] in the JSDoc): the primitives an attribute holds.
    Nothing below looks inside a value. *)
Inductive Value :=
| VUndefined
| VNull
| VBool (b : bool)
| VNumber (z : Z)
| VString (str : string).

(** What a [throw] carries. *)
Inductive Error :=
| CKEditorError (message : string)
| TypeError (message : string).

(** The result of running a method: it returns, it throws, or the fuel of
    one of its loops ran out. *)
Inductive Outcome (A : Type) :=
| Return (a : A)
| Throw (e : Error)
| OutOfFuel.

Arguments Return {A} a.
Arguments Throw {A} e.
Arguments OutOfFuel {A}.

#[export] Instance Outcome_ret : MRet Outcome := fun A a => Return a.

#[export] Instance Outcome_bind : MBind Outcome := fun A B f m =>
  match m with
  | Return a => f a
  | Throw e => Throw e
  | OutOfFuel => OutOfFuel
  end.

(** Modelled from the spec: CKEditorError (utils/ckeditorerror) is not among
    the sources. The spec says a structural fault carries a stable string
    code; in the sources the code is what the message starts with, up to the
    first colon, and the trailing JSDoc names it with [@error]. *)
Fixpoint upToColon (message : string) : string :=
  match message with
  | EmptyString => EmptyString
  | String c rest => if Ascii.eqb c ":"%char then EmptyString else String c (upToColon rest)
  end.

Definition errorCode (e : Error) : option string :=
  match e with
  | CKEditorError message => Some (upToColon message)
  | TypeError _ => None
  end.

(** ** The native Map that holds the attributes

    Entries are kept in insertion order, which [toJSON] exposes; keys are
    strings, compared by value. *)

Definition JSMap := list (string * Value).

Fixpoint Map_has (m : JSMap) (key : string) : bool :=
  match m with
  | [] => false
  | (k, _) :: rest => if String.eqb k key then true else Map_has rest key
  end.

Fixpoint Map_get (m : JSMap) (key : string) : Value :=
  match m with
  | [] => VUndefined
  | (k, v) :: rest => if String.eqb k key then v else Map_get rest key
  end.

(** [set] overwrites the value of a key already present, where it stands,
    and appends a new key. *)
Fixpoint Map_set (m : JSMap) (key : string) (value : Value) : JSMap :=
  match m with
  | [] => [(key, value)]
  | (k, v) :: rest =>
      if String.eqb k key then (k, value) :: rest else (k, v) :: Map_set rest key value
  end.

Fixpoint Map_delete (m : JSMap) (key : string) : JSMap :=
  match m with
  | [] => []
  | (k, v) :: rest => if String.eqb k key then rest else (k, v) :: Map_delete rest key
  end.

Definition Map_size (m : JSMap) : nat := length m.
Definition Map_entries (m : JSMap) : list (string * Value) := m.
Definition Map_keys (m : JSMap) : list string := m.*1.

(** [new Map( iterable )]: every pair is [set] in turn on an empty map. *)
Definition Map_new (pairs : list (string * Value)) : JSMap :=
  foldl (fun m kv => Map_set m kv.1 kv.2) [] pairs.

(** A native Map never holds a key twice. *)
Definition Map_ok (m : JSMap) : Prop := NoDup m.*1.

(** Modelled from the spec: toMap (utils/tomap) is not among the sources.
    The constructor's argument is optional; given, it is a sequence of
    (key, value) pairs, the format [getAttributes] documents as accepted by
    the native Map and by the constructor. *)
Definition toMap (attrs : option (list (string * Value))) : JSMap :=
  match attrs with
  | None => Map_new []
  | Some pairs => Map_new pairs
  end.

(** ** Objects and the store *)

(** Object references and documents are told apart by number. *)
Abbreviation Ref := nat (only parsing).
Abbreviation Document := nat (only parsing).

(** What the classes built on [Node] add to it. [PlainNode] is an instance
    of the base class itself, as [clone] creates. *)
Inductive Variant :=
| PlainNode
| Element (name : string) (_children : list Ref)
| Text (_data : string)
| DocumentFragment (_children : list Ref)
| RootElement (name : string) (_children : list Ref) (_doc : Document).

Record Object := mkObject {
  parent : option Ref;
  _attrs : JSMap;
  variant : Variant
}.

Definition Store := Ref -> Object.

Definition children (o : Object) : list Ref :=
  match variant o with
  | Element _ c | DocumentFragment c | RootElement _ c _ => c
  | PlainNode | Text _ => []
  end.

(** [offsetSize]: 1 in [Node]. Modelled from the spec: the text node's
    override is not among the sources; its offset size is the length of its
    text. *)
Definition offsetSize (s : Store) (this : Ref) : Z :=
  match variant (s this) with
  | Text data => Z.of_nat (String.length data)
  | _ => 1%Z
  end.

(** Modelled from the spec: the child list of an element or document
    fragment (getChildIndex, getChildStartOffset, getChild) is not among the
    sources. The index of a node is its position among the children, its
    start offset the sum of the offset sizes of the children before it; both
    are null for a node that is not a child. The list is walked from its
    head, so the cost is the number of preceding siblings. *)
Fixpoint getNodeIndex (nodes : list Ref) (node : Ref) (pos : Z) : option Z :=
  match nodes with
  | [] => None
  | c :: rest => if Nat.eqb c node then Some pos else getNodeIndex rest node (pos + 1)
  end.

Fixpoint getNodeStartOffset (s : Store) (nodes : list Ref) (node : Ref) (sum : Z) : option Z :=
  match nodes with
  | [] => None
  | c :: rest =>
      if Nat.eqb c node then Some sum else getNodeStartOffset s rest node (sum + offsetSize s c)
  end.

Definition getChildIndex (s : Store) (this node : Ref) : option Z :=
  getNodeIndex (children (s this)) node 0%Z.

Definition getChildStartOffset (s : Store) (this node : Ref) : option Z :=
  getNodeStartOffset s (children (s this)) node 0%Z.

Definition getChild (s : Store) (this : Ref) (index : Z) : option Ref :=
  if (index <? 0)%Z then None else children (s this) !! Z.to_nat index.

(** Modelled from the spec: the root element is not among the sources. A
    tree root that a document owns stores a back-reference to it; a document
    fragment has no [document] property, and on any other parentless node
    the property is the getter below, which answers null. *)
Definition documentOfRoot (s : Store) (r : Ref) : option Document :=
  match variant (s r) with
  | RootElement _ _ doc => Some doc
  | _ => None
  end.

(** ** The class *)

Module Node.

Definition notFoundInParent : Error :=
  CKEditorError "model-node-not-found-in-parent: The node's parent does not contain this node.".

(** [constructor( attrs )]: the fields the base class sets. *)
Definition constructor (attrs : option (list (string * Value))) : Object :=
  {| parent := None; _attrs := toMap attrs; variant := PlainNode |}.

Definition index (s : Store) (this : Ref) : Outcome (option Z) :=
  match parent (s this) with
  | None => Return None
  | Some p =>
      match getChildIndex s p this with
      | None => Throw notFoundInParent
      | Some pos => Return (Some pos)
      end
  end.

Definition startOffset (s : Store) (this : Ref) : Outcome (option Z) :=
  match parent (s this) with
  | None => Return None
  | Some p =>
      match getChildStartOffset s p this with
      | None => Throw notFoundInParent
      | Some pos => Return (Some pos)
      end
  end.

(** [null + n] is [n]: null converts to 0. *)
Definition plus (a : option Z) (b : Z) : Z := (default 0 a + b)%Z.

Definition endOffset (s : Store) (this : Ref) : Outcome (option Z) :=
  match parent (s this) with
  | None => Return None
  | Some _ => so ← startOffset s this; Return (Some (plus so (offsetSize s this)))
  end.

(** [this.parent.getChild( i )]; reading a property of null is a TypeError. *)
Definition parentGetChild (s : Store) (this : Ref) (i : Z) : Outcome (option Ref) :=
  match parent (s this) with
  | None => Throw (TypeError "Cannot read properties of null")
  | Some p => Return (getChild s p i)
  end.

Definition nextSibling (s : Store) (this : Ref) : Outcome (option Ref) :=
  idx ← index s this;
  match idx with
  | None => Return None
  | Some i => parentGetChild s this (i + 1)
  end.

Definition previousSibling (s : Store) (this : Ref) : Outcome (option Ref) :=
  idx ← index s this;
  match idx with
  | None => Return None
  | Some i => parentGetChild s this (i - 1)
  end.

(** [while ( root.parent ) root = root.parent]: one unit of fuel for each
    run of the body. *)
Fixpoint root_loop (fuel : nat) (s : Store) (root : Ref) {struct fuel} : Outcome Ref :=
  match parent (s root) with
  | None => Return root
  | Some p =>
      match fuel with
      | O => OutOfFuel
      | S fuel' => root_loop fuel' s p
      end
  end.

Definition root (fuel : nat) (s : Store) (this : Ref) : Outcome Ref :=
  root_loop fuel s this.

(** The getter of the base class. A root element has its own; what a read
    of [n.document] runs on a given object is [documentProperty] below. *)
Definition document (fuel : nat) (s : Store) (this : Ref) : Outcome (option Document) :=
  r ← root fuel s this;
  if Nat.eqb r this then Return None
  else r' ← root fuel s this; Return (documentOfRoot s r').

Definition clone (s : Store) (this : Ref) : Object :=
  constructor (Some (Map_entries (_attrs (s this)))).

Fixpoint getPath_loop (fuel : nat) (s : Store) (node : Ref) (path : list (option Z))
    {struct fuel} : Outcome (list (option Z)) :=
  match parent (s node) with
  | None => Return path
  | Some p =>
      match fuel with
      | O => OutOfFuel
      | S fuel' => so ← startOffset s node; getPath_loop fuel' s p (so :: path)
      end
  end.

Definition getPath (fuel : nat) (s : Store) (this : Ref) : Outcome (list (option Z)) :=
  getPath_loop fuel s this [].

Record AncestorsOptions := {
  includeSelf : bool;
  parentFirst : bool
}.

Definition defaultOptions : AncestorsOptions :=
  {| includeSelf := false; parentFirst := false |}.

Fixpoint getAncestors_loop (fuel : nat) (s : Store) (options : AncestorsOptions)
    (parent' : option Ref) (ancestors : list Ref) {struct fuel} : Outcome (list Ref) :=
  match parent' with
  | None => Return ancestors
  | Some p =>
      match fuel with
      | O => OutOfFuel
      | S fuel' =>
          getAncestors_loop fuel' s options (parent (s p))
            (if parentFirst options then ancestors ++ [p] else p :: ancestors)
      end
  end.

Definition getAncestors (fuel : nat) (s : Store) (this : Ref) (options : AncestorsOptions)
    : Outcome (list Ref) :=
  getAncestors_loop fuel s options
    (if includeSelf options then Some this else parent (s this)) [].

(** [ancestorsA[ i ] == ancestorsB[ i ] && ancestorsA[ i ]]: both entries
    exist and are the same object. *)
Definition sameEntry (ancestorsA ancestorsB : list Ref) (i : nat) : bool :=
  match ancestorsA !! i, ancestorsB !! i with
  | Some a, Some b => Nat.eqb a b
  | _, _ => false
  end.

(** [while ( ... ) i++]. The condition fails at the length of [ancestorsA]
    at the latest, so that many steps always reach the exit. *)
Fixpoint commonPrefix_loop (steps : nat) (ancestorsA ancestorsB : list Ref) (i : nat) : nat :=
  match steps with
  | O => i
  | S steps' =>
      if sameEntry ancestorsA ancestorsB i
      then commonPrefix_loop steps' ancestorsA ancestorsB (S i)
      else i
  end.

(** The options object is handed to [getAncestors] as it is; the documented
    one has [includeSelf] only. *)
Definition getCommonAncestor (fuel : nat) (s : Store) (this node : Ref)
    (options : AncestorsOptions) : Outcome (option Ref) :=
  ancestorsA ← getAncestors fuel s this options;
  ancestorsB ← getAncestors fuel s node options;
  let i := commonPrefix_loop (length ancestorsA) ancestorsA ancestorsB 0 in
  Return (match i with
          | O => None
          | S i' => ancestorsA !! i'
          end).

Definition hasAttribute (s : Store) (this : Ref) (key : string) : bool :=
  Map_has (_attrs (s this)) key.

Definition getAttribute (s : Store) (this : Ref) (key : string) : Value :=
  Map_get (_attrs (s this)) key.

Definition getAttributes (s : Store) (this : Ref) : list (string * Value) :=
  Map_entries (_attrs (s this)).

Definition getAttributeKeys (s : Store) (this : Ref) : list string :=
  Map_keys (_attrs (s this)).

(** Writing a field of one object leaves every other object as it was. *)
Definition setAttrs (s : Store) (this : Ref) (m : JSMap) : Store :=
  fun r =>
    if Nat.eqb r this
    then {| parent := parent (s this); _attrs := m; variant := variant (s this) |}
    else s r.

Definition _setAttribute (s : Store) (this : Ref) (key : string) (value : Value) : Store :=
  setAttrs s this (Map_set (_attrs (s this)) key value).

Definition _setAttributesTo (s : Store) (this : Ref) (attrs : option (list (string * Value)))
    : Store :=
  setAttrs s this (toMap attrs).

(** Returns what [Map.delete] returns, whether the key was there, and the
    store after it. *)
Definition _removeAttribute (s : Store) (this : Ref) (key : string) : bool * Store :=
  (Map_has (_attrs (s this)) key, setAttrs s this (Map_delete (_attrs (s this)) key)).

Definition _clearAttributes (s : Store) (this : Ref) : Store :=
  setAttrs s this [].

(** A plain object, as [toJSON] builds: property names to what they hold. *)
Inductive JSONValue :=
| JPairs (pairs : list (string * Value)).

Definition toJSON (s : Store) (this : Ref) : gmap string JSONValue :=
  let json : gmap string JSONValue := ∅ in
  if Nat.eqb (Map_size (_attrs (s this))) 0
  then json
  else <["attributes" := JPairs (Map_entries (_attrs (s this)))]> json.

End Node.

(** [json.attributes]: undefined when the object has no such property. *)
Definition attributesOf (json : gmap string Node.JSONValue) : option (list (string * Value)) :=
  match json !! "attributes" with
  | Some (Node.JPairs pairs) => Some pairs
  | None => None
  end.

(** ** The priority tests of the list utilities

    [createListElement] and [createListItemElement] are not among the
    sources; their tests are. The tests read one number off each element
    they create, its priority, so the two functions enter as the priority
    they assign at an indent. *)

Section PriorityTests.

Variable listElementPriority : nat -> Q.
Variable listItemElementPriority : nat -> Q.

(** [previousPriority]: it starts at [Number.NEGATIVE_INFINITY]; a finite
    number is the rational it stands for, which is all a comparison sees. *)
Inductive Bound :=
| NegativeInfinity
| Finite (q : Q).

Definition greaterThan (x : Q) (bound : Bound) : bool :=
  match bound with
  | NegativeInfinity => true
  | Finite q => negb (Qle_bool x q)
  end.

Definition lessThan (x y : Q) : bool := negb (Qle_bool y x).

(** The body of the loop of 'priorities of LI and UL should interleave
    between nesting levels'; [None] when an expectation fails. *)
Definition interleaveBody (previousPriority : Bound) (i : nat) : option Bound :=
  if greaterThan (listElementPriority i) previousPriority
     && lessThan (listElementPriority i) (80 # 1)
  then
    let previousPriority := Finite (listElementPriority i) in
    if greaterThan (listItemElementPriority i) previousPriority
       && lessThan (listItemElementPriority i) (80 # 1)
    then Some (Finite (listItemElementPriority i))
    else None
  else None.

(** [for ( let i = ...; i < ... ; i++ )], [count] rounds from [i] on. *)
Fixpoint forLoop (body : Bound -> nat -> option Bound) (count i : nat)
    (previousPriority : Bound) : option Bound :=
  match count with
  | O => Some previousPriority
  | S count' =>
      match body previousPriority i with
      | None => None
      | Some previousPriority' => forLoop body count' (S i) previousPriority'
      end
  end.

Definition interleaveTest : bool :=
  match forLoop interleaveBody 20 0 NegativeInfinity with
  | Some _ => true
  | None => false
  end.

End PriorityTests.

(** ** Depth and ancestor chains *)

(** [Depth s n d]: [n] lies [d] levels below the root of its tree. *)
Inductive Depth (s : Store) : Ref -> nat -> Prop :=
| Depth_root n : parent (s n) = None -> Depth s n 0
| Depth_child n p d : parent (s n) = Some p -> Depth s p d -> Depth s n (S d).

(** The first [d] parents of [n], [n] first. *)
Fixpoint chain (s : Store) (d : nat) (n : Ref) : list Ref :=
  n :: match d with
       | O => []
       | S d' =>
           match parent (s n) with
           | Some p => chain s d' p
           | None => []
           end
       end.

(** The sum of the offset sizes of a run of children. *)
Definition sumOffsetSizes (s : Store) (nodes : list Ref) : Z :=
  foldr (fun c acc => (offsetSize s c + acc)%Z) 0%Z nodes.

(** [n] stands in the child list of its parent, when it has one. *)
Definition Attached (s : Store) (n : Ref) : Prop :=
  match parent (s n) with
  | Some p => n ∈ children (s p)
  | None => True
  end.

(** The ancestors of a node at depth [d], parent first: the chain, with or
    without the node itself. *)
Definition ancestorChain (s : Store) (d : nat) (n : Ref) (includeSelf : bool) : list Ref :=
  if includeSelf then chain s d n else tail (chain s d n).

(** The nodes of a chain below its root, root end first. *)
Definition belowRoot (s : Store) (d : nat) (n : Ref) : list Ref :=
  reverse (take d (chain s d n)).

(** The start offsets of a run of nodes, each as [startOffset] gives it. *)
Fixpoint startOffsets (s : Store) (nodes : list Ref) : Outcome (list (option Z)) :=
  match nodes with
  | [] => Return []
  | x :: rest =>
      so ← Node.startOffset s x; l ← startOffsets s rest; Return (so :: l)
  end.

(** An ancestor array, root first: the node at place [j] lies at depth [j],
    and the array up to it is that node's own chain. *)
Definition RootFirst (s : Store) (A : list Ref) : Prop :=
  ∀ j x, A !! j = Some x -> Depth s x j ∧ take (S j) A = reverse (chain s j x).

(** The deepest node of two ancestor arrays: [result] stands in both and no
    node of both lies deeper; null means the arrays share no node. *)
Definition DeepestCommon (s : Store) (A B : list Ref) (result : option Ref) : Prop :=
  match result with
  | Some c =>
      c ∈ A ∧ c ∈ B ∧
      ∃ dc, Depth s c dc ∧ ∀ x, x ∈ A -> x ∈ B -> ∃ dx, Depth s x dx ∧ dx <= dc
  | None => ∀ x, x ∈ A -> x ∉ B
  end.

(** Two stores with the same parents and the same variants: what the
    attribute methods leave alone. *)
Definition SameShape (s s' : Store) : Prop :=
  ∀ r, parent (s' r) = parent (s r) ∧ variant (s' r) = variant (s r).

(** [x] is [n] or one of its ancestors: [n] reaches it by going from parent
    to parent. *)
Inductive AncestorOrSelf (s : Store) : Ref -> Ref -> Prop :=
| AncestorOrSelf_self n : AncestorOrSelf s n n
| AncestorOrSelf_up x p n :
    parent (s n) = Some p -> AncestorOrSelf s x p -> AncestorOrSelf s x n.

(** What an ancestor array of [n] has to hold: with [includeSelf] the node
    and its ancestors, without it the ancestors alone. *)
Definition InAncestors (s : Store) (includeSelf : bool) (x n : Ref) : Prop :=
  if includeSelf then AncestorOrSelf s x n
  else ∃ p, parent (s n) = Some p ∧ AncestorOrSelf s x p.

(** The nodes among the objects: a document fragment is not one. *)
Definition isNode (s : Store) (n : Ref) : bool :=
  match variant (s n) with
  | DocumentFragment _ => false
  | _ => true
  end.

(** Reading [n.document] on a node. Modelled from the spec: the root element
    is not among the sources; it is the tree root that a document owns and
    answers that document, whatever the getter of [Node] would say. Every
    other node runs the getter of [Node]. A document fragment has no such
    property; it is given the null its callers turn the missing property
    into, and no property below reads it there. *)
Definition documentProperty (fuel : nat) (s : Store) (n : Ref) : Outcome (option Document) :=
  match variant (s n) with
  | RootElement _ _ doc => Return (Some doc)
  | DocumentFragment _ => Return None
  | _ => Node.document fuel s n
  end.

(** ** Removal

    [_remove() { this.parent._removeChildren( this.index ); }]. The parent's
    [_removeChildren] is not among the sources and enters as a parameter: the
    store after the removal at the index it is given, or what it throws. The
    method of the parent is looked up before the argument is evaluated. *)

Section Remove.

Variable _removeChildren : Store -> Ref -> option Z -> Outcome Store.

Definition _remove (s : Store) (this : Ref) : Outcome Store :=
  match parent (s this) with
  | None => Throw (TypeError "Cannot read properties of null")
  | Some p => idx ← Node.index s this; _removeChildren s p idx
  end.

End Remove.

(** ** The two monotonicity tests of the list utilities

    'should use priority related to indent', once for [createListElement]
    and once for [createListItemElement]: the same loop over the priority of
    the element created at each indent. *)

Section MonotonicityTests.

Variable priority : nat -> Q.

Definition increasingBody (previousPriority : Bound) (i : nat) : option Bound :=
  if greaterThan (priority i) previousPriority && lessThan (priority i) (80 # 1)
  then Some (Finite (priority i))
  else None.

Definition increasingTest : bool :=
  match forLoop increasingBody 20 0 NegativeInfinity with
  | Some _ => true
  | None => false
  end.

End MonotonicityTests.

(** ** Example stores *)

(** The tree of the [getPath] JSDoc: [div] holds [h1] and [p], [h1] holds
    the text header, [p] holds the texts abc and foo. *)
Definition docTree : Store := fun r =>
  match r with
  | 0 => mkObject None [] (Element "div" [1; 3])
  | 1 => mkObject (Some 0) [] (Element "h1" [2])
  | 2 => mkObject (Some 1) [] (Text "header")
  | 3 => mkObject (Some 0) [("align", VString "left")] (Element "p" [4; 5])
  | 4 => mkObject (Some 3) [] (Text "abc")
  | 5 => mkObject (Some 3) [("bold", VBool true); ("lang", VUndefined)] (Text "foo")
  | 6 => mkObject None [] (DocumentFragment [7])
  | 7 => mkObject (Some 6) [] (Element "paragraph" [])
  | _ => mkObject None [] PlainNode
  end.

(** A broken tree: node 1 names node 0 as its parent, and node 0 does not
    hold it. *)
Definition brokenTree : Store := fun r =>
  match r with
  | 0 => mkObject None [] (Element "div" [2])
  | 1 => mkObject (Some 0) [] (Element "p" [])
  | 2 => mkObject (Some 0) [] (Text "x")
  | _ => mkObject None [] PlainNode
  end.

(** A tree of a document: node 0 is the root element that document 7 owns,
    node 1 a paragraph in it. *)
Definition rootTree : Store := fun r =>
  match r with
  | 0 => mkObject None [] (RootElement "$root" [1] 7)
  | 1 => mkObject (Some 0) [] (Element "paragraph" [])
  | _ => mkObject None [] PlainNode
  end.

(** A tree gone cyclic: nodes 0 and 1 are each other's parent; node 2 hangs
    below node 1 and node 3 stands alone. *)
Definition cyclicTree : Store := fun r =>
  match r with
  | 0 => mkObject (Some 1) [] (Element "a" [1])
  | 1 => mkObject (Some 0) [] (Element "b" [0; 2])
  | 2 => mkObject (Some 1) [] (Text "x")
  | _ => mkObject None [] PlainNode
  end.

(** * Properties *)

Example docTree_foo_path : Node.getPath 5 docTree 5 = Return [Some 1%Z; Some 3%Z].
Proof. reflexivity. Qed.

Example docTree_h1_path : Node.getPath 5 docTree 1 = Return [Some 0%Z].
Proof. reflexivity. Qed.

Example docTree_div_path : Node.getPath 5 docTree 0 = Return [].
Proof. reflexivity. Qed.

Example docTree_foo_ancestors :
  Node.getAncestors 5 docTree 5 Node.defaultOptions = Return [0; 3].
Proof. reflexivity. Qed.

Example docTree_common :
  Node.getCommonAncestor 5 docTree 2 5 Node.defaultOptions = Return (Some 0).
Proof. reflexivity. Qed.

Example docTree_cycle_fuel :
  Node.root 3 (fun _ => mkObject (Some 0) [] PlainNode) 0 = OutOfFuel.
Proof. reflexivity. Qed.

(** ** The child list *)

Lemma getNodeIndex_found (s : Store) (nodes : list Ref) (node : Ref) (pos sum : Z) :
  node ∈ nodes ->
  ∃ i : nat,
    nodes !! i = Some node ∧
    (∀ j : nat, j < i -> nodes !! j ≠ Some node) ∧
    getNodeIndex nodes node pos = Some (pos + Z.of_nat i)%Z ∧
    getNodeStartOffset s nodes node sum = Some (sum + sumOffsetSizes s (take i nodes))%Z.
Proof.
  revert pos sum. induction nodes as [|c rest IH]; intros pos sum Hin.
  - inversion Hin.
  - simpl. destruct (Nat.eqb c node) eqn:E.
    + apply Nat.eqb_eq in E. subst c. exists 0. simpl.
      repeat split; try (f_equal; lia); intros j Hj; lia.
    + apply Nat.eqb_neq in E.
      apply elem_of_cons in Hin as [Heq|Hin]; [congruence|].
      destruct (IH (pos + 1)%Z (sum + offsetSize s c)%Z Hin) as (i & Hi & Hfirst & Hidx & Hoff).
      exists (S i). simpl. repeat split.
      * exact Hi.
      * intros [|j] Hj; simpl; [congruence|]. apply Hfirst. lia.
      * rewrite Hidx. f_equal. lia.
      * rewrite Hoff. f_equal. lia.
Qed.

Lemma getNodeIndex_missing (s : Store) (nodes : list Ref) (node : Ref) (pos sum : Z) :
  node ∉ nodes ->
  getNodeIndex nodes node pos = None ∧ getNodeStartOffset s nodes node sum = None.
Proof.
  revert pos sum. induction nodes as [|c rest IH]; intros pos sum Hnin; [done|].
  simpl. apply not_elem_of_cons in Hnin as [Hne Hnin].
  destruct (Nat.eqb c node) eqn:E.
  - apply Nat.eqb_eq in E. congruence.
  - apply IH, Hnin.
Qed.

(** C1. A node that its parent's child list holds: [index] is its position in
    that list (the first place where it stands), and [startOffset] is the sum
    of the offset sizes of the siblings before it. *)
Theorem index_startOffset_attached (s : Store) (n p : Ref) :
  parent (s n) = Some p ->
  n ∈ children (s p) ->
  ∃ i : nat,
    children (s p) !! i = Some n ∧
    (∀ j : nat, j < i -> children (s p) !! j ≠ Some n) ∧
    Node.index s n = Return (Some (Z.of_nat i)) ∧
    Node.startOffset s n = Return (Some (sumOffsetSizes s (take i (children (s p))))).
Proof.
  intros Hp Hin.
  destruct (getNodeIndex_found s _ _ 0%Z 0%Z Hin) as (i & Hi & Hfirst & Hidx & Hoff).
  exists i. unfold Node.index, Node.startOffset, getChildIndex, getChildStartOffset.
  rewrite Hp, Hidx, Hoff. repeat split; try assumption; do 2 f_equal; lia.
Qed.

Lemma index_startOffset_attached_witness :
  ∃ i : nat,
    children (docTree 3) !! i = Some 5 ∧
    (∀ j : nat, j < i -> children (docTree 3) !! j ≠ Some 5) ∧
    Node.index docTree 5 = Return (Some (Z.of_nat i)) ∧
    Node.startOffset docTree 5
      = Return (Some (sumOffsetSizes docTree (take i (children (docTree 3))))).
Proof.
  apply (index_startOffset_attached docTree 5 3).
  - reflexivity.
  - simpl. apply list_elem_of_In. simpl. tauto.
Defined.

(** C2. A node whose parent's child list does not hold it: [index] and
    [startOffset] both throw the error whose code is
    model-node-not-found-in-parent, and neither returns any value. *)
Theorem index_startOffset_not_in_parent (s : Store) (n p : Ref) :
  parent (s n) = Some p ->
  n ∉ children (s p) ->
  Node.index s n = Throw Node.notFoundInParent ∧
  Node.startOffset s n = Throw Node.notFoundInParent ∧
  errorCode Node.notFoundInParent = Some "model-node-not-found-in-parent" ∧
  (∀ v, Node.index s n ≠ Return v) ∧
  (∀ v, Node.startOffset s n ≠ Return v).
Proof.
  intros Hp Hnin.
  destruct (getNodeIndex_missing s _ _ 0%Z 0%Z Hnin) as [Hidx Hoff].
  unfold Node.index, Node.startOffset, getChildIndex, getChildStartOffset.
  rewrite Hp, Hidx, Hoff. repeat split; try reflexivity; intros v; discriminate.
Qed.

Lemma index_startOffset_not_in_parent_witness :
  Node.index brokenTree 1 = Throw Node.notFoundInParent ∧
  Node.startOffset brokenTree 1 = Throw Node.notFoundInParent ∧
  errorCode Node.notFoundInParent = Some "model-node-not-found-in-parent" ∧
  (∀ v, Node.index brokenTree 1 ≠ Return v) ∧
  (∀ v, Node.startOffset brokenTree 1 ≠ Return v).
Proof.
  apply (index_startOffset_not_in_parent brokenTree 1 0).
  - reflexivity.
  - simpl. intros H. apply list_elem_of_In in H. simpl in H. intuition discriminate.
Defined.

(** C9. A node with no parent: [index], [startOffset], [endOffset],
    [nextSibling] and [previousSibling] return null, none of them throws,
    and [root] returns the node itself, whatever the fuel. Reading
    [document] gives null on every such node but a root element, which
    answers the document that owns it. *)
Theorem parentless_accessors (s : Store) (n : Ref) :
  parent (s n) = None -> isNode s n = true ->
  Node.index s n = Return None ∧
  Node.startOffset s n = Return None ∧
  Node.endOffset s n = Return None ∧
  Node.nextSibling s n = Return None ∧
  Node.previousSibling s n = Return None ∧
  (∀ fuel, Node.root fuel s n = Return n) ∧
  ((∀ name c doc, variant (s n) ≠ RootElement name c doc) ->
   ∀ fuel, documentProperty fuel s n = Return None) ∧
  (∀ name c doc, variant (s n) = RootElement name c doc ->
   ∀ fuel, documentProperty fuel s n = Return (Some doc)).
Proof.
  intros Hp Hnode.
  assert (Hroot : ∀ fuel, Node.root fuel s n = Return n).
  { intros fuel. unfold Node.root. destruct fuel; simpl; rewrite Hp; reflexivity. }
  assert (Hdoc : ∀ fuel, Node.document fuel s n = Return None).
  { intros fuel. unfold Node.document. rewrite Hroot. simpl.
    rewrite Nat.eqb_refl. reflexivity. }
  unfold Node.index, Node.startOffset, Node.endOffset, Node.nextSibling,
    Node.previousSibling, Node.index.
  rewrite Hp. repeat split; try reflexivity; try exact Hroot.
  - intros Hnot fuel. unfold documentProperty.
    destruct (variant (s n)) as [|name c|data|c|name c doc]; try apply Hdoc; try reflexivity.
    exfalso. by apply (Hnot name c doc).
  - intros name c doc Hv fuel. unfold documentProperty. by rewrite Hv.
Qed.

Lemma parentless_accessors_witness :
  Node.index docTree 0 = Return None ∧
  Node.startOffset docTree 0 = Return None ∧
  Node.endOffset docTree 0 = Return None ∧
  Node.nextSibling docTree 0 = Return None ∧
  Node.previousSibling docTree 0 = Return None ∧
  (∀ fuel, Node.root fuel docTree 0 = Return 0) ∧
  ((∀ name c doc, variant (docTree 0) ≠ RootElement name c doc) ->
   ∀ fuel, documentProperty fuel docTree 0 = Return None) ∧
  (∀ name c doc, variant (docTree 0) = RootElement name c doc ->
   ∀ fuel, documentProperty fuel docTree 0 = Return (Some doc)).
Proof.
  apply (parentless_accessors docTree 0); reflexivity.
Defined.

(** A root element has no parent and its [document] is not null. *)
Lemma parentless_document_counterexample :
  parent (rootTree 0) = None ∧
  isNode rootTree 0 = true ∧
  documentProperty 5 rootTree 0 = Return (Some 7) ∧
  documentProperty 5 rootTree 0 ≠ Return None.
Proof. repeat split. discriminate. Qed.

(** ** Walking up the parent chain *)

Lemma Depth_fun (s : Store) (n : Ref) (d d' : nat) :
  Depth s n d -> Depth s n d' -> d = d'.
Proof.
  intros H. revert d'. induction H as [n Hn|n p d Hn _ IH]; intros d' H'.
  - inversion H'; congruence.
  - inversion H' as [|n' p' d'' Hn' Hp']; subst; [congruence|].
    f_equal. apply IH. congruence.
Qed.

Lemma chain_length (s : Store) (n : Ref) (d : nat) :
  Depth s n d -> length (chain s d n) = S d.
Proof.
  induction 1 as [n Hn|n p d Hn _ IH]; simpl; [reflexivity|].
  rewrite Hn. simpl in IH. rewrite IH. reflexivity.
Qed.

Lemma chain_head (s : Store) (n : Ref) (d : nat) : head (chain s d n) = Some n.
Proof. destruct d; reflexivity. Qed.

(** The node at place [k] of a chain is [k] levels up, and the chain goes on
    from it as its own chain. *)
Lemma chain_lookup (s : Store) (n : Ref) (d k : nat) (x : Ref) :
  Depth s n d ->
  chain s d n !! k = Some x ->
  k <= d ∧ Depth s x (d - k) ∧ drop k (chain s d n) = chain s (d - k) x.
Proof.
  intros H. revert k. induction H as [n Hn|n p d Hn Hd IH]; intros k Hk.
  - destruct k as [|k]; simpl in Hk; [|destruct k; discriminate].
    injection Hk as <-. repeat split; [lia|by constructor].
  - destruct k as [|k].
    + simpl in Hk. injection Hk as <-. repeat split; [lia|].
      replace (S d - 0) with (S d) by lia. by econstructor.
    + simpl in Hk. rewrite Hn in Hk. destruct (IH k Hk) as (Hle & Hx & Hdrop).
      replace (S d - S k) with (d - k) by lia. repeat split; [lia|exact Hx|].
      simpl. rewrite Hn. exact Hdrop.
Qed.

Lemma chain_no_self (s : Store) (n p : Ref) (d : nat) :
  parent (s n) = Some p -> Depth s p d -> n ∉ chain s d p.
Proof.
  intros Hn Hp Hin. apply list_elem_of_lookup in Hin as [k Hk].
  destruct (chain_lookup s p d k n Hp Hk) as (Hle & Hd & _).
  assert (Hd' : Depth s n (S d)) by (econstructor; eassumption).
  pose proof (Depth_fun s n _ _ Hd Hd'). lia.
Qed.

Lemma root_loop_chain (s : Store) (n : Ref) (d fuel : nat) :
  Depth s n d -> d <= fuel ->
  ∃ r, Node.root_loop fuel s n = Return r ∧ last (chain s d n) = Some r ∧ parent (s r) = None.
Proof.
  intros H. revert fuel. induction H as [n Hn|n p d Hn _ IH]; intros fuel Hf.
  - exists n. destruct fuel; simpl; rewrite Hn; auto.
  - destruct fuel as [|fuel]; [lia|].
    destruct (IH fuel ltac:(lia)) as (r & Hr & Hlast & Hroot).
    exists r. simpl. rewrite Hn. repeat split; try assumption.
    destruct (chain s d p) eqn:E; [discriminate|]. exact Hlast.
Qed.

Lemma getAncestors_loop_chain (s : Store) (options : Node.AncestorsOptions)
    (n : Ref) (d fuel : nat) (ancestors : list Ref) :
  Depth s n d -> d < fuel ->
  Node.getAncestors_loop fuel s options (Some n) ancestors
  = Return (if Node.parentFirst options
            then ancestors ++ chain s d n
            else reverse (chain s d n) ++ ancestors).
Proof.
  intros H. revert fuel ancestors.
  induction H as [n Hn|n p d Hn _ IH]; intros fuel ancestors Hf.
  - destruct fuel as [|fuel]; [lia|]. simpl. rewrite Hn.
    destruct fuel; simpl; destruct (Node.parentFirst options); reflexivity.
  - destruct fuel as [|fuel]; [lia|]. simpl. rewrite Hn.
    rewrite IH by lia. destruct (Node.parentFirst options).
    + by rewrite <- app_assoc.
    + rewrite reverse_cons, <- app_assoc. reflexivity.
Qed.

Lemma getAncestors_chain (s : Store) (options : Node.AncestorsOptions)
    (n : Ref) (d fuel : nat) :
  Depth s n d -> d < fuel ->
  Node.getAncestors fuel s n options
  = Return (if Node.parentFirst options
            then ancestorChain s d n (Node.includeSelf options)
            else reverse (ancestorChain s d n (Node.includeSelf options))).
Proof.
  intros H Hf. unfold Node.getAncestors, ancestorChain.
  destruct (Node.includeSelf options).
  - rewrite (getAncestors_loop_chain s options n d fuel [] H Hf).
    destruct (Node.parentFirst options); [reflexivity|by rewrite app_nil_r].
  - destruct H as [n Hn|n p d Hn Hd].
    + rewrite Hn. destruct fuel; simpl; destruct (Node.parentFirst options); reflexivity.
    + rewrite Hn. rewrite (getAncestors_loop_chain s options p d fuel [] Hd ltac:(lia)).
      simpl. rewrite Hn. destruct (Node.parentFirst options); [reflexivity|by rewrite app_nil_r].
Qed.

(** C4. A node [n] at depth [d]: with [includeSelf] and [parentFirst] both
    true [getAncestors] returns [d + 1] entries, [n] first and the root
    last; with the default options it returns the same chain without [n],
    reversed, so [d] entries with the root first (when there is any). *)
Theorem getAncestors_depth (s : Store) (n : Ref) (d fuel : nat) :
  Depth s n d -> d < fuel ->
  ∃ (r : Ref) (up down : list Ref),
    Node.root fuel s n = Return r ∧
    Node.getAncestors fuel s n {| Node.includeSelf := true; Node.parentFirst := true |}
      = Return up ∧
    length up = S d ∧ head up = Some n ∧ last up = Some r ∧
    Node.getAncestors fuel s n Node.defaultOptions = Return down ∧
    down = reverse (tail up) ∧
    length down = d ∧ (n ∉ down) ∧ (0 < d -> head down = Some r).
Proof.
  intros H Hf.
  destruct (root_loop_chain s n d fuel H ltac:(lia)) as (r & Hr & Hlast & _).
  exists r, (chain s d n), (reverse (tail (chain s d n))).
  rewrite !(getAncestors_chain s _ n d fuel H Hf). simpl.
  repeat split; try assumption.
  - by apply chain_length.
  - apply chain_head.
  - rewrite length_reverse. pose proof (chain_length s n d H) as Hl.
    destruct (chain s d n); simpl in *; lia.
  - rewrite elem_of_reverse. destruct H as [n Hn|n p d Hn Hd]; simpl.
    + apply not_elem_of_nil.
    + rewrite Hn. by apply chain_no_self.
  - intros Hd. destruct H as [n Hn|n p d Hn Hp]; [lia|].
    simpl in Hlast |- *. rewrite Hn in Hlast |- *.
    destruct (chain s d p) as [|c l] eqn:E.
    + pose proof (chain_head s p d) as Hh. rewrite E in Hh. discriminate.
    + rewrite head_reverse. exact Hlast.
Qed.

Lemma getAncestors_depth_witness :
  ∃ (r : Ref) (up down : list Ref),
    Node.root 3 docTree 5 = Return r ∧
    Node.getAncestors 3 docTree 5 {| Node.includeSelf := true; Node.parentFirst := true |}
      = Return up ∧
    length up = 3 ∧ head up = Some 5 ∧ last up = Some r ∧
    Node.getAncestors 3 docTree 5 Node.defaultOptions = Return down ∧
    down = reverse (tail up) ∧
    length down = 2 ∧ (5 ∉ down) ∧ (0 < 2 -> head down = Some r).
Proof.
  apply (getAncestors_depth docTree 5 2 3).
  - apply (Depth_child docTree 5 3 1); [reflexivity|].
    apply (Depth_child docTree 3 0 0); [reflexivity|].
    apply Depth_root. reflexivity.
  - lia.
Defined.

(** ** Paths *)

Lemma startOffset_cases (s : Store) (n : Ref) :
  Node.startOffset s n = Throw Node.notFoundInParent ∨
  ∃ v, Node.startOffset s n = Return v.
Proof.
  unfold Node.startOffset. destruct (parent (s n)) as [p|]; [|eauto].
  destruct (getChildStartOffset s p n); eauto.
Qed.

Lemma startOffsets_cases (s : Store) (nodes : list Ref) :
  startOffsets s nodes = Throw Node.notFoundInParent ∨
  ∃ path, startOffsets s nodes = Return path ∧ length path = length nodes.
Proof.
  induction nodes as [|x rest IH]; simpl; [right; by exists []|].
  destruct (startOffset_cases s x) as [->|[v ->]]; [by left|]. simpl.
  destruct IH as [->|(path & -> & Hlen)]; [by left|]. right.
  exists (v :: path). simpl. by rewrite Hlen.
Qed.

Lemma startOffsets_snoc (s : Store) (nodes : list Ref) (n : Ref) :
  startOffsets s (nodes ++ [n])
  = (so ← Node.startOffset s n; l ← startOffsets s nodes; Return (l ++ [so])).
Proof.
  induction nodes as [|x rest IH]; simpl.
  - destruct (Node.startOffset s n); reflexivity.
  - rewrite IH.
    destruct (startOffset_cases s x) as [->|[v ->]];
      destruct (startOffset_cases s n) as [->|[w ->]]; simpl; try reflexivity;
      destruct (startOffsets_cases s rest) as [->|(path & -> & _)]; reflexivity.
Qed.

Lemma chain_split (s : Store) (n : Ref) (d fuel : nat) :
  Depth s n d -> d <= fuel ->
  ∃ r, Node.root fuel s n = Return r ∧ reverse (chain s d n) = r :: belowRoot s d n.
Proof.
  intros H Hf. destruct (root_loop_chain s n d fuel H Hf) as (r & Hr & Hlast & _).
  exists r. split; [exact Hr|]. unfold belowRoot.
  pose proof (chain_length s n d H) as Hlen.
  rewrite <- (take_drop d (chain s d n)) in Hlast |- * at 1.
  destruct (drop d (chain s d n)) as [|x [|y l]] eqn:E.
  - apply (f_equal length) in E. rewrite length_drop in E. simpl in E. lia.
  - rewrite last_snoc in Hlast. injection Hlast as ->. by rewrite reverse_snoc.
  - apply (f_equal length) in E. rewrite length_drop in E. simpl in E. lia.
Qed.

Lemma getPath_loop_chain (s : Store) (n : Ref) (d fuel : nat) (path : list (option Z)) :
  Depth s n d -> d <= fuel ->
  Node.getPath_loop fuel s n path
  = (l ← startOffsets s (belowRoot s d n); Return (l ++ path)).
Proof.
  intros H. revert fuel path. induction H as [n Hn|n p d Hn Hd IH]; intros fuel path Hf.
  - destruct fuel; simpl; rewrite Hn; reflexivity.
  - destruct fuel as [|fuel]; [lia|]. simpl. rewrite Hn.
    unfold belowRoot. simpl. rewrite Hn, reverse_cons.
    fold (belowRoot s d p). rewrite startOffsets_snoc.
    destruct (Node.startOffset s n) as [so| |]; simpl; try reflexivity.
    rewrite IH by lia.
    destruct (startOffsets s (belowRoot s d p)); simpl; try reflexivity.
    by rewrite <- app_assoc.
Qed.

Lemma startOffsets_attached (s : Store) (nodes : list Ref) :
  Forall (fun x => is_Some (parent (s x)) ∧ Attached s x) nodes ->
  ∃ path, startOffsets s nodes = Return path ∧ Forall is_Some path.
Proof.
  induction 1 as [|x rest [[p Hp] Hx] _ (path & IH & Hsome)]; [by exists []|].
  unfold Attached in Hx. rewrite Hp in Hx.
  destruct (getNodeIndex_found s _ _ 0%Z 0%Z Hx) as (i & _ & _ & _ & Hoff).
  simpl. unfold Node.startOffset, getChildStartOffset. rewrite Hp, Hoff. simpl.
  rewrite IH. simpl. eexists. split; [reflexivity|]. constructor; [eauto|exact Hsome].
Qed.

Lemma belowRoot_parents (s : Store) (n : Ref) (d : nat) :
  Depth s n d -> Forall (fun x => is_Some (parent (s x))) (belowRoot s d n).
Proof.
  intros H. unfold belowRoot. apply Forall_reverse.
  induction H as [n Hn|n p d Hn _ IH]; simpl; [constructor|].
  rewrite Hn. constructor; [eauto|exact IH].
Qed.

(** C3. [getPath] of a node at depth [d]: with [r :: below] the ancestors of
    the node, itself included, from the root down, the path is the start
    offsets of [below], the child of the root first and the node last. It has
    one entry for each level; when every node of [below] stands in its
    parent's child list the walk returns, each entry a number, and otherwise
    it throws what [startOffset] throws. For a node with no parent the path
    is empty. *)
Theorem getPath_startOffsets (s : Store) (n : Ref) (d fuel : nat) :
  Depth s n d -> d < fuel ->
  ∃ (r : Ref) (below : list Ref),
    Node.root fuel s n = Return r ∧
    Node.getAncestors fuel s n {| Node.includeSelf := true; Node.parentFirst := false |}
      = Return (r :: below) ∧
    length below = d ∧
    Node.getPath fuel s n = startOffsets s below ∧
    (∀ path, Node.getPath fuel s n = Return path -> length path = d) ∧
    (Forall (Attached s) below ->
     ∃ path, Node.getPath fuel s n = Return path ∧ Forall is_Some path) ∧
    (Node.getPath fuel s n = Throw Node.notFoundInParent ∨
     ∃ path, Node.getPath fuel s n = Return path) ∧
    (parent (s n) = None -> Node.getPath fuel s n = Return []).
Proof.
  intros H Hf.
  destruct (chain_split s n d fuel H ltac:(lia)) as (r & Hr & Hsplit).
  assert (Hlen : length (belowRoot s d n) = d).
  { unfold belowRoot. rewrite length_reverse, length_take, (chain_length s n d H). lia. }
  assert (Hpath : Node.getPath fuel s n = startOffsets s (belowRoot s d n)).
  { unfold Node.getPath. rewrite (getPath_loop_chain s n d fuel [] H ltac:(lia)).
    destruct (startOffsets s (belowRoot s d n)); simpl; try reflexivity.
    by rewrite app_nil_r. }
  exists r, (belowRoot s d n).
  rewrite (getAncestors_chain s _ n d fuel H Hf). simpl. unfold ancestorChain.
  rewrite Hsplit, Hpath. repeat split; try assumption.
  - intros path Hp.
    destruct (startOffsets_cases s (belowRoot s d n)) as [Ht|(path' & Hr' & Hl)]; congruence.
  - intros Hatt. apply startOffsets_attached.
    pose proof (belowRoot_parents s n d H) as Hpar.
    rewrite Forall_forall in Hatt, Hpar |- *. intros x Hx. split; auto.
  - destruct (startOffsets_cases s (belowRoot s d n)) as [Ht|(path' & Hr' & _)]; eauto.
  - intros Hn. destruct H as [n _|n p d Hp _]; [reflexivity|congruence].
Qed.

Lemma getPath_startOffsets_witness :
  ∃ (r : Ref) (below : list Ref),
    Node.root 3 docTree 5 = Return r ∧
    Node.getAncestors 3 docTree 5 {| Node.includeSelf := true; Node.parentFirst := false |}
      = Return (r :: below) ∧
    length below = 2 ∧
    Node.getPath 3 docTree 5 = startOffsets docTree below ∧
    (∀ path, Node.getPath 3 docTree 5 = Return path -> length path = 2) ∧
    (Forall (Attached docTree) below ->
     ∃ path, Node.getPath 3 docTree 5 = Return path ∧ Forall is_Some path) ∧
    (Node.getPath 3 docTree 5 = Throw Node.notFoundInParent ∨
     ∃ path, Node.getPath 3 docTree 5 = Return path) ∧
    (parent (docTree 5) = None -> Node.getPath 3 docTree 5 = Return []).
Proof.
  apply (getPath_startOffsets docTree 5 2 3).
  - apply (Depth_child docTree 5 3 1); [reflexivity|].
    apply (Depth_child docTree 3 0 0); [reflexivity|].
    apply Depth_root. reflexivity.
  - lia.
Defined.

(** ** Common ancestors *)

Lemma sameEntry_true (A B : list Ref) (i : nat) :
  Node.sameEntry A B i = true <-> ∃ c, A !! i = Some c ∧ B !! i = Some c.
Proof.
  unfold Node.sameEntry. split.
  - destruct (A !! i) as [a|], (B !! i) as [b|]; try discriminate.
    intros E. apply Nat.eqb_eq in E. subst. eauto.
  - intros (c & HA & HB). rewrite HA, HB. apply Nat.eqb_refl.
Qed.

(** The loop stops at the first place where the two arrays differ or one of
    them ends; the steps it is given are enough for it to get there. *)
Lemma commonPrefix_loop_exit (steps : nat) (A B : list Ref) (i0 : nat) :
  length A <= steps + i0 ->
  (∀ j, j < i0 -> Node.sameEntry A B j = true) ->
  i0 <= Node.commonPrefix_loop steps A B i0 ∧
  (∀ j, j < Node.commonPrefix_loop steps A B i0 -> Node.sameEntry A B j = true) ∧
  Node.sameEntry A B (Node.commonPrefix_loop steps A B i0) = false.
Proof.
  revert i0. induction steps as [|steps IH]; intros i0 Hlen Hinv; simpl.
  - repeat split; [lia|exact Hinv|].
    unfold Node.sameEntry. rewrite (proj2 (lookup_ge_None A i0)) by lia. reflexivity.
  - destruct (Node.sameEntry A B i0) eqn:E.
    + destruct (IH (S i0)) as (Hle & Hsame & Hexit).
      * lia.
      * intros j Hj. destruct (decide (j = i0)) as [->|]; [exact E|apply Hinv; lia].
      * repeat split; [lia|exact Hsame|exact Hexit].
    + repeat split; [lia|exact Hinv|exact E].
Qed.

Lemma RootFirst_nil (s : Store) : RootFirst s [].
Proof. intros j x Hj. discriminate. Qed.

Lemma RootFirst_chain (s : Store) (n : Ref) (d : nat) :
  Depth s n d -> RootFirst s (reverse (chain s d n)).
Proof.
  intros H j x Hj. pose proof (chain_length s n d H) as Hlen.
  apply reverse_lookup_Some in Hj as [Hj Hlt]. rewrite Hlen in Hj, Hlt.
  destruct (chain_lookup s n d _ x H Hj) as (_ & Hx & Hdrop).
  replace (d - (S d - S j)) with j in Hx, Hdrop by lia.
  split; [exact Hx|]. rewrite take_reverse, Hlen, Hdrop. reflexivity.
Qed.

Lemma RootFirst_ancestorChain (s : Store) (n : Ref) (d : nat) (includeSelf : bool) :
  Depth s n d -> RootFirst s (reverse (ancestorChain s d n includeSelf)).
Proof.
  intros H. unfold ancestorChain. destruct includeSelf; [by apply RootFirst_chain|].
  destruct H as [n Hn|n p d Hn Hd]; simpl; [apply RootFirst_nil|].
  rewrite Hn. by apply RootFirst_chain.
Qed.

(** A node that stands in two root-first arrays stands at the same place in
    both, and the arrays agree up to it. *)
Lemma RootFirst_common (s : Store) (A B : list Ref) (x : Ref) :
  RootFirst s A -> RootFirst s B -> x ∈ A -> x ∈ B ->
  ∃ j, A !! j = Some x ∧ Depth s x j ∧ ∀ i, i <= j -> Node.sameEntry A B i = true.
Proof.
  intros HA HB HxA HxB.
  apply list_elem_of_lookup in HxA as [j Hj]. apply list_elem_of_lookup in HxB as [k Hk].
  destruct (HA j x Hj) as [Hdj HtA]. destruct (HB k x Hk) as [Hdk HtB].
  pose proof (Depth_fun s x j k Hdj Hdk) as <-.
  exists j. repeat split; [exact Hj|exact Hdj|]. intros i Hi.
  assert (Hi' : i < length A) by (apply lookup_lt_Some in Hj; lia).
  destruct (lookup_lt_is_Some_2 A i Hi') as [c Hc].
  apply sameEntry_true. exists c. split; [exact Hc|].
  rewrite <- (lookup_take_lt B (S j) i) by lia.
  rewrite HtB, <- HtA. rewrite lookup_take_lt by lia. exact Hc.
Qed.

Lemma commonPrefix_deepest (s : Store) (A B : list Ref) :
  RootFirst s A -> RootFirst s B ->
  DeepestCommon s A B
    (match Node.commonPrefix_loop (length A) A B 0 with
     | O => None
     | S i' => A !! i'
     end).
Proof.
  intros HA HB.
  destruct (commonPrefix_loop_exit (length A) A B 0) as (_ & Hsame & Hexit);
    [lia|intros j Hj; lia|].
  destruct (Node.commonPrefix_loop (length A) A B 0) as [|i'].
  - intros x HxA HxB.
    destruct (RootFirst_common s A B x HA HB HxA HxB) as (j & _ & _ & Hall).
    rewrite (Hall 0) in Hexit by lia. discriminate.
  - destruct (proj1 (sameEntry_true A B i') (Hsame i' ltac:(lia))) as (c & HcA & HcB).
    rewrite HcA. repeat split.
    + apply list_elem_of_lookup. eauto.
    + apply list_elem_of_lookup. eauto.
    + exists i'. split; [apply (HA i' c HcA)|]. intros x HxA HxB.
      destruct (RootFirst_common s A B x HA HB HxA HxB) as (j & _ & Hd & Hall).
      exists j. split; [exact Hd|].
      destruct (decide (j <= i')) as [|Hgt]; [assumption|].
      rewrite (Hall (S i')) in Hexit by lia. discriminate.
Qed.

Lemma ancestorChain_last (s : Store) (n : Ref) (d : nat) (includeSelf : bool) (x : Ref) :
  head (reverse (ancestorChain s d n includeSelf)) = Some x ->
  last (chain s d n) = Some x.
Proof.
  rewrite head_reverse. unfold ancestorChain. destruct includeSelf; [done|].
  destruct (chain s d n) as [|y [|z l]]; simpl; try discriminate. done.
Qed.

(** The chain of a node holds the node and its ancestors, and nothing
    else. *)
Lemma chain_ancestors (s : Store) (n : Ref) (d : nat) (x : Ref) :
  Depth s n d -> x ∈ chain s d n <-> AncestorOrSelf s x n.
Proof.
  intros H. split.
  - induction H as [n Hn|n p d Hn _ IH]; simpl.
    + intros Hx. apply list_elem_of_singleton in Hx as ->. constructor.
    + rewrite Hn. intros Hx. apply elem_of_cons in Hx as [->|Hx]; [constructor|].
      econstructor; [exact Hn|by apply IH].
  - intros Hx. revert d H. induction Hx as [n|x p n Hn _ IH]; intros d H.
    + destruct d; simpl; by left.
    + inversion H as [? Hn'|? p' d' Hn' Hp']; subst; [congruence|].
      assert (p' = p) by congruence. subst p'.
      simpl. rewrite Hn. right. by apply IH.
Qed.

Lemma ancestorChain_ancestors (s : Store) (n : Ref) (d : nat) (includeSelf : bool) (x : Ref) :
  Depth s n d ->
  x ∈ reverse (ancestorChain s d n includeSelf) <-> InAncestors s includeSelf x n.
Proof.
  intros H. rewrite elem_of_reverse. unfold ancestorChain, InAncestors.
  destruct includeSelf; [by apply chain_ancestors|].
  destruct H as [n Hn|n p d Hn Hd]; simpl.
  - split; [intros Hx; inversion Hx|]. intros (p & Hp & _). congruence.
  - rewrite Hn, (chain_ancestors s p d x Hd). split; [eauto|].
    intros (p' & Hp' & Hx). congruence.
Qed.

(** C5. Two nodes at finite depth, [includeSelf] either way (the documented
    options): the two ancestor arrays are the parent chains of the nodes,
    root first, holding the ancestors of each (and the node itself with
    [includeSelf]) and nothing else. [getCommonAncestor] returns, and never
    throws. What it returns is the deepest node that stands in both arrays,
    null when they share no node; under one root with both arrays non-empty
    it is a node; under two different roots it is null. *)
Theorem getCommonAncestor_deepest (s : Store) (a b : Ref) (includeSelf : bool)
    (da db fuel : nat) :
  Depth s a da -> Depth s b db -> da < fuel -> db < fuel ->
  let options := {| Node.includeSelf := includeSelf; Node.parentFirst := false |} in
  ∃ (ra rb : Ref) (A B : list Ref) (result : option Ref),
    Node.root fuel s a = Return ra ∧
    Node.root fuel s b = Return rb ∧
    (parent (s ra) = None ∧ AncestorOrSelf s ra a) ∧
    (parent (s rb) = None ∧ AncestorOrSelf s rb b) ∧
    Node.getAncestors fuel s a options = Return A ∧
    Node.getAncestors fuel s b options = Return B ∧
    A = reverse (ancestorChain s da a includeSelf) ∧
    B = reverse (ancestorChain s db b includeSelf) ∧
    (∀ x, x ∈ A <-> InAncestors s includeSelf x a) ∧
    (∀ x, x ∈ B <-> InAncestors s includeSelf x b) ∧
    Node.getCommonAncestor fuel s a b options = Return result ∧
    DeepestCommon s A B result ∧
    (ra = rb -> A ≠ [] -> B ≠ [] -> is_Some result) ∧
    (ra ≠ rb -> result = None).
Proof.
  intros Ha Hb Hfa Hfb options.
  destruct (root_loop_chain s a da fuel Ha ltac:(lia)) as (ra & Hra & Hlasta & Hpa).
  destruct (root_loop_chain s b db fuel Hb ltac:(lia)) as (rb & Hrb & Hlastb & Hpb).
  assert (Haa : AncestorOrSelf s ra a).
  { apply (chain_ancestors s a da ra Ha). rewrite last_lookup in Hlasta.
    apply list_elem_of_lookup. eauto. }
  assert (Hab : AncestorOrSelf s rb b).
  { apply (chain_ancestors s b db rb Hb). rewrite last_lookup in Hlastb.
    apply list_elem_of_lookup. eauto. }
  pose proof (fun x => ancestorChain_ancestors s a da includeSelf x Ha) as HmA.
  pose proof (fun x => ancestorChain_ancestors s b db includeSelf x Hb) as HmB.
  remember (reverse (ancestorChain s da a includeSelf)) as A eqn:EA.
  remember (reverse (ancestorChain s db b includeSelf)) as B eqn:EB.
  assert (HA : Node.getAncestors fuel s a options = Return A)
    by (rewrite (getAncestors_chain s options a da fuel Ha Hfa), EA; reflexivity).
  assert (HB : Node.getAncestors fuel s b options = Return B)
    by (rewrite (getAncestors_chain s options b db fuel Hb Hfb), EB; reflexivity).
  assert (HrA : RootFirst s A) by (rewrite EA; by apply RootFirst_ancestorChain).
  assert (HrB : RootFirst s B) by (rewrite EB; by apply RootFirst_ancestorChain).
  assert (HhA : ∀ x, head A = Some x -> x = ra).
  { intros x Hx. rewrite EA in Hx. apply ancestorChain_last in Hx. congruence. }
  assert (HhB : ∀ x, head B = Some x -> x = rb).
  { intros x Hx. rewrite EB in Hx. apply ancestorChain_last in Hx. congruence. }
  destruct (commonPrefix_loop_exit (length A) A B 0) as (_ & Hsame & Hexit);
    [lia|intros j Hj; lia|].
  pose proof (commonPrefix_deepest s A B HrA HrB) as Hdeep.
  exists ra, rb, A, B.
  exists (match Node.commonPrefix_loop (length A) A B 0 with
          | O => None
          | S i' => A !! i'
          end).
  split; [exact Hra|]. split; [exact Hrb|].
  split; [split; [exact Hpa|exact Haa]|]. split; [split; [exact Hpb|exact Hab]|].
  split; [exact HA|]. split; [exact HB|].
  split; [reflexivity|]. split; [reflexivity|].
  split; [exact HmA|]. split; [exact HmB|].
  split; [unfold Node.getCommonAncestor; rewrite HA, HB; reflexivity|].
  split; [exact Hdeep|]. clear Hdeep EA EB HmA HmB. split.
  - intros Heq HAne HBne.
    destruct (Node.commonPrefix_loop (length A) A B 0) as [|i'].
    + exfalso. destruct A as [|x A']; [done|]. destruct B as [|y B']; [done|].
      pose proof (HhA x eq_refl). pose proof (HhB y eq_refl). subst x y.
      unfold Node.sameEntry in Hexit. simpl in Hexit.
      rewrite Heq, Nat.eqb_refl in Hexit. discriminate.
    + destruct (proj1 (sameEntry_true _ _ i') (Hsame i' ltac:(lia))) as (c & Hc & _).
      rewrite Hc. eauto.
  - intros Hne.
    destruct (Node.commonPrefix_loop (length A) A B 0) as [|i']; [reflexivity|].
    exfalso. apply Hne.
    destruct (proj1 (sameEntry_true A B 0) (Hsame 0 ltac:(lia))) as (c & HcA & HcB).
    rewrite <- head_lookup in HcA, HcB.
    rewrite <- (HhA c HcA). apply (HhB c HcB).
Qed.

Lemma getCommonAncestor_deepest_witness :
  let options := {| Node.includeSelf := false; Node.parentFirst := false |} in
  ∃ (ra rb : Ref) (A B : list Ref) (result : option Ref),
    Node.root 3 docTree 4 = Return ra ∧
    Node.root 3 docTree 5 = Return rb ∧
    (parent (docTree ra) = None ∧ AncestorOrSelf docTree ra 4) ∧
    (parent (docTree rb) = None ∧ AncestorOrSelf docTree rb 5) ∧
    Node.getAncestors 3 docTree 4 options = Return A ∧
    Node.getAncestors 3 docTree 5 options = Return B ∧
    A = reverse (ancestorChain docTree 2 4 false) ∧
    B = reverse (ancestorChain docTree 2 5 false) ∧
    (∀ x, x ∈ A <-> InAncestors docTree false x 4) ∧
    (∀ x, x ∈ B <-> InAncestors docTree false x 5) ∧
    Node.getCommonAncestor 3 docTree 4 5 options = Return result ∧
    DeepestCommon docTree A B result ∧
    (ra = rb -> A ≠ [] -> B ≠ [] -> is_Some result) ∧
    (ra ≠ rb -> result = None).
Proof.
  apply (getCommonAncestor_deepest docTree 4 5 false 2 2 3).
  - apply (Depth_child docTree 4 3 1); [reflexivity|].
    apply (Depth_child docTree 3 0 0); [reflexivity|].
    apply Depth_root. reflexivity.
  - apply (Depth_child docTree 5 3 1); [reflexivity|].
    apply (Depth_child docTree 3 0 0); [reflexivity|].
    apply Depth_root. reflexivity.
  - lia.
  - lia.
Defined.

(** Two children of one parent: the arrays the statement fixes are the
    root and the parent, and the answer is the parent. *)
Example docTree_siblings :
  reverse (ancestorChain docTree 2 4 false) = [0; 3] ∧
  reverse (ancestorChain docTree 2 5 false) = [0; 3] ∧
  Node.getCommonAncestor 3 docTree 4 5 Node.defaultOptions = Return (Some 3).
Proof. repeat split; reflexivity. Qed.

Example docTree_disjoint :
  Node.getCommonAncestor 3 docTree 5 7 Node.defaultOptions = Return None.
Proof. reflexivity. Qed.

Example docTree_inside :
  Node.getCommonAncestor 3 docTree 3 5 {| Node.includeSelf := true; Node.parentFirst := false |}
  = Return (Some 3).
Proof. reflexivity. Qed.

(** C6. Two nodes with no parent: without [includeSelf] the common ancestor
    is null, also when the two are one and the same root; with
    [includeSelf], one root taken twice gives that root. *)
Theorem getCommonAncestor_roots (s : Store) (a b : Ref) (fuel : nat) :
  parent (s a) = None -> parent (s b) = None ->
  Node.getCommonAncestor fuel s a b
    {| Node.includeSelf := false; Node.parentFirst := false |} = Return None ∧
  Node.getCommonAncestor fuel s a a
    {| Node.includeSelf := false; Node.parentFirst := false |} = Return None ∧
  Node.getCommonAncestor (S fuel) s a a
    {| Node.includeSelf := true; Node.parentFirst := false |} = Return (Some a).
Proof.
  intros Ha Hb. unfold Node.getCommonAncestor, Node.getAncestors. simpl.
  rewrite Ha, Hb. repeat split.
  - destruct fuel; reflexivity.
  - destruct fuel; reflexivity.
  - destruct fuel; simpl; unfold Node.sameEntry; simpl; rewrite Nat.eqb_refl; reflexivity.
Qed.

Lemma getCommonAncestor_roots_witness :
  Node.getCommonAncestor 0 docTree 0 6
    {| Node.includeSelf := false; Node.parentFirst := false |} = Return None ∧
  Node.getCommonAncestor 0 docTree 0 0
    {| Node.includeSelf := false; Node.parentFirst := false |} = Return None ∧
  Node.getCommonAncestor 1 docTree 0 0
    {| Node.includeSelf := true; Node.parentFirst := false |} = Return (Some 0).
Proof.
  apply (getCommonAncestor_roots docTree 0 6 0); reflexivity.
Defined.

(** The options object goes to [getAncestors] untouched: with a
    [parentFirst] it does not document, the arrays are compared from the
    nodes' end, and two siblings get their root instead of their parent. *)
Example docTree_parentFirst_passed_on :
  Node.getCommonAncestor 3 docTree 4 5 {| Node.includeSelf := false; Node.parentFirst := true |}
  = Return (Some 0) ∧
  Node.getCommonAncestor 3 docTree 4 5 Node.defaultOptions = Return (Some 3).
Proof. split; reflexivity. Qed.

(** ** Attributes *)

Lemma Map_has_keys (m : JSMap) (key : string) :
  Map_has m key = true <-> key ∈ m.*1.
Proof.
  induction m as [|[k v] rest IH]; simpl.
  - split; [discriminate|]. intros H. inversion H.
  - rewrite elem_of_cons. destruct (String.eqb k key) eqn:E.
    + apply String.eqb_eq in E. subst. split; auto.
    + apply String.eqb_neq in E. rewrite IH. split; [auto|].
      intros [Heq|Hin]; [congruence|exact Hin].
Qed.

Lemma Map_has_set (m : JSMap) (key : string) (value : Value) :
  Map_has (Map_set m key value) key = true.
Proof.
  induction m as [|[k v] rest IH]; simpl.
  - by rewrite String.eqb_refl.
  - destruct (String.eqb k key) eqn:E; simpl; rewrite E; [reflexivity|exact IH].
Qed.

Lemma Map_get_set (m : JSMap) (key : string) (value : Value) :
  Map_get (Map_set m key value) key = value.
Proof.
  induction m as [|[k v] rest IH]; simpl.
  - by rewrite String.eqb_refl.
  - destruct (String.eqb k key) eqn:E; simpl; rewrite E; [reflexivity|exact IH].
Qed.

Lemma Map_get_absent (m : JSMap) (key : string) :
  Map_has m key = false -> Map_get m key = VUndefined.
Proof.
  induction m as [|[k v] rest IH]; simpl; [reflexivity|].
  destruct (String.eqb k key); [discriminate|exact IH].
Qed.

Lemma Map_set_fresh (m : JSMap) (key : string) (value : Value) :
  key ∉ m.*1 -> Map_set m key value = m ++ [(key, value)].
Proof.
  induction m as [|[k v] rest IH]; simpl; [reflexivity|].
  intros Hnin. apply not_elem_of_cons in Hnin as [Hne Hnin].
  destruct (String.eqb k key) eqn:E.
  - apply String.eqb_eq in E. congruence.
  - by rewrite IH.
Qed.

Lemma Map_set_keys (m : JSMap) (key : string) (value : Value) :
  key ∈ m.*1 -> (Map_set m key value).*1 = m.*1.
Proof.
  induction m as [|[k v] rest IH]; simpl; [by intros H; inversion H|].
  intros Hin. destruct (String.eqb k key) eqn:E; [reflexivity|].
  apply String.eqb_neq in E. apply elem_of_cons in Hin as [Heq|Hin]; [congruence|].
  simpl. f_equal. by apply IH.
Qed.

(** The maps the class can build never hold a key twice. *)
Lemma Map_set_ok (m : JSMap) (key : string) (value : Value) :
  Map_ok m -> Map_ok (Map_set m key value).
Proof.
  unfold Map_ok. intros Hm. destruct (decide (key ∈ m.*1)) as [Hin|Hnin].
  - by rewrite Map_set_keys.
  - rewrite Map_set_fresh, fmap_app by done. simpl.
    apply NoDup_app. repeat split; [exact Hm| |apply NoDup_singleton].
    intros x Hx Hx'. apply list_elem_of_singleton in Hx'. congruence.
Qed.

Lemma Map_new_ok (pairs : list (string * Value)) : Map_ok (Map_new pairs).
Proof.
  unfold Map_new. assert (H : Map_ok []) by apply NoDup_nil_2.
  revert H. generalize (@nil (string * Value)).
  induction pairs as [|[k v] rest IH]; intros acc Hacc; simpl; [exact Hacc|].
  apply IH. by apply Map_set_ok.
Qed.

Lemma Map_delete_ok (m : JSMap) (key : string) : Map_ok m -> Map_ok (Map_delete m key).
Proof.
  unfold Map_ok. induction m as [|[k v] rest IH]; simpl; [done|].
  intros Hm. apply NoDup_cons in Hm as [Hk Hrest].
  destruct (String.eqb k key); [exact Hrest|]. simpl. apply NoDup_cons. split; [|by apply IH].
  intros Hin. apply Hk. clear -Hin.
  induction rest as [|[k' v'] rest IH]; simpl in *; [done|].
  destruct (String.eqb k' key); [by right|].
  simpl in Hin. apply elem_of_cons in Hin as [->|Hin]; [by left|right; by apply IH].
Qed.

(** Building a map from the entries of a map gives the map back. *)
Lemma Map_new_entries (m : JSMap) : Map_ok m -> Map_new (Map_entries m) = m.
Proof.
  unfold Map_new, Map_entries, Map_ok.
  assert (H : ∀ (l acc : JSMap), NoDup (acc ++ l).*1 ->
            foldl (fun m kv => Map_set m kv.1 kv.2) acc l = acc ++ l).
  { induction l as [|[k v] rest IH]; intros acc Hnd; simpl; [by rewrite app_nil_r|].
    rewrite Map_set_fresh.
    - rewrite IH; rewrite <- app_assoc; [reflexivity|exact Hnd].
    - rewrite fmap_app in Hnd. apply NoDup_app in Hnd as (_ & Hdisj & _).
      intros Hin. apply (Hdisj k Hin). simpl. by left. }
  intros Hm. by apply (H m []).
Qed.

Lemma setAttrs_self (s : Store) (n : Ref) (m : JSMap) : _attrs (Node.setAttrs s n m n) = m.
Proof. unfold Node.setAttrs. by rewrite Nat.eqb_refl. Qed.

(** C10. [hasAttribute( k )] is true exactly when [k] is one of the keys of
    the pairs [getAttributes] returns, whatever value is stored under it:
    after [_setAttribute( k, v )] it is true and [getAttribute( k )] is [v],
    so with [v] undefined the attribute is there and reads as undefined. *)
Theorem hasAttribute_keys (s : Store) (n : Ref) (k : string) :
  (Node.hasAttribute s n k = true <-> k ∈ (Node.getAttributes s n).*1) ∧
  (∀ v, Node.hasAttribute (Node._setAttribute s n k v) n k = true ∧
        Node.getAttribute (Node._setAttribute s n k v) n k = v) ∧
  (Node.hasAttribute (Node._setAttribute s n k VUndefined) n k = true ∧
   Node.getAttribute (Node._setAttribute s n k VUndefined) n k = VUndefined) ∧
  (Node.hasAttribute s n k = false -> Node.getAttribute s n k = VUndefined).
Proof.
  unfold Node.hasAttribute, Node.getAttribute, Node.getAttributes, Node._setAttribute,
    Map_entries.
  split; [apply Map_has_keys|].
  split; [intros v|split]; rewrite ?setAttrs_self.
  - split; [apply Map_has_set|apply Map_get_set].
  - split; [apply Map_has_set|apply Map_get_set].
  - apply Map_get_absent.
Qed.

Lemma hasAttribute_keys_witness :
  (Node.hasAttribute docTree 5 "lang" = true <-> "lang" ∈ (Node.getAttributes docTree 5).*1) ∧
  (∀ v, Node.hasAttribute (Node._setAttribute docTree 5 "lang" v) 5 "lang" = true ∧
        Node.getAttribute (Node._setAttribute docTree 5 "lang" v) 5 "lang" = v) ∧
  (Node.hasAttribute (Node._setAttribute docTree 5 "lang" VUndefined) 5 "lang" = true ∧
   Node.getAttribute (Node._setAttribute docTree 5 "lang" VUndefined) 5 "lang" = VUndefined) ∧
  (Node.hasAttribute docTree 5 "lang" = false -> Node.getAttribute docTree 5 "lang" = VUndefined).
Proof.
  apply (hasAttribute_keys docTree 5 "lang").
Defined.

Example docTree_foo_lang :
  Node.hasAttribute docTree 5 "lang" = true ∧ Node.getAttribute docTree 5 "lang" = VUndefined ∧
  Node.hasAttribute docTree 5 "size" = false ∧ Node.getAttribute docTree 5 "size" = VUndefined.
Proof. repeat split; reflexivity. Qed.

(** ** The plain object of [toJSON] *)

(** C7. [toJSON] returns an object whose only property is [attributes],
    holding the node's (key, value) pairs in their order, when the node has
    an attribute, and an empty object when it has none; a node constructed
    from that property has the attribute map of the first, entry for entry. *)
Theorem toJSON_roundtrip (s : Store) (n : Ref) :
  Map_ok (_attrs (s n)) ->
  (Node.getAttributes s n ≠ [] ->
   Node.toJSON s n = {[ "attributes" := Node.JPairs (Node.getAttributes s n) ]}) ∧
  (Node.getAttributes s n = [] -> Node.toJSON s n = ∅) ∧
  (is_Some (Node.toJSON s n !! "attributes") <-> Node.getAttributes s n ≠ []) ∧
  _attrs (Node.constructor (attributesOf (Node.toJSON s n))) = _attrs (s n) ∧
  parent (Node.constructor (attributesOf (Node.toJSON s n))) = None.
Proof.
  intros Hok. unfold Node.toJSON, Node.getAttributes, Map_size, Map_entries.
  destruct (_attrs (s n)) as [|kv m] eqn:E.
  - change (Nat.eqb (length (@nil (string * Value))) 0) with true. cbv iota.
    split; [done|]. split; [done|]. split; [|done].
    split; [|done]. intros [x Hx]. by rewrite lookup_empty in Hx.
  - change (Nat.eqb (length (kv :: m)) 0) with false. cbv iota.
    assert (Hattr : attributesOf (<["attributes" := Node.JPairs (kv :: m)]> ∅)
                    = Some (kv :: m)).
    { unfold attributesOf. by rewrite lookup_insert_eq. }
    rewrite Hattr. split; [done|]. split; [done|]. split; [|split; [|done]].
    + split; [done|]. intros _. rewrite lookup_insert_eq. eauto.
    + apply (Map_new_entries (kv :: m) Hok).
Qed.

Lemma toJSON_roundtrip_witness :
  (Node.getAttributes docTree 5 ≠ [] ->
   Node.toJSON docTree 5 = {[ "attributes" := Node.JPairs (Node.getAttributes docTree 5) ]}) ∧
  (Node.getAttributes docTree 5 = [] -> Node.toJSON docTree 5 = ∅) ∧
  (is_Some (Node.toJSON docTree 5 !! "attributes") <-> Node.getAttributes docTree 5 ≠ []) ∧
  _attrs (Node.constructor (attributesOf (Node.toJSON docTree 5))) = _attrs (docTree 5) ∧
  parent (Node.constructor (attributesOf (Node.toJSON docTree 5))) = None.
Proof.
  apply (toJSON_roundtrip docTree 5).
  unfold Map_ok. simpl. apply NoDup_cons. split.
  - intros H. apply list_elem_of_In in H. simpl in H. intuition discriminate.
  - apply NoDup_singleton.
Defined.

(** ** What the priority tests decide *)

Section PriorityTestsFacts.

Variable listElementPriority : nat -> Q.
Variable listItemElementPriority : nat -> Q.

Lemma greaterThan_Finite (x q : Q) : greaterThan x (Finite q) = true <-> (q < x)%Q.
Proof.
  simpl. rewrite negb_true_iff, <- not_true_iff_false, Qle_bool_iff.
  split; [apply Qnot_le_lt|apply Qlt_not_le].
Qed.

Lemma lessThan_lt (x y : Q) : lessThan x y = true <-> (x < y)%Q.
Proof.
  unfold lessThan. rewrite negb_true_iff, <- not_true_iff_false, Qle_bool_iff.
  split; [apply Qnot_le_lt|apply Qlt_not_le].
Qed.

Lemma forLoop_interleave (count i : nat) (previousPriority : Bound) :
  is_Some (forLoop (interleaveBody listElementPriority listItemElementPriority) count i previousPriority) <->
  (0 < count -> greaterThan (listElementPriority i) previousPriority = true) ∧
  (∀ j, i <= j < i + count ->
     (listElementPriority j < listItemElementPriority j)%Q ∧
     (listElementPriority j < 80 # 1)%Q ∧ (listItemElementPriority j < 80 # 1)%Q) ∧
  (∀ j, i <= j -> S j < i + count ->
     (listItemElementPriority j < listElementPriority (S j))%Q).
Proof.
  revert i previousPriority. induction count as [|count IH]; intros i prev; simpl.
  - split; [|eauto]. intros _. repeat split; intros; lia.
  - unfold interleaveBody.
    destruct (greaterThan (listElementPriority i) prev) eqn:E1; simpl.
    2:{ split; [intros [x Hx]; discriminate|]. intros (H & _). specialize (H ltac:(lia)).
        discriminate. }
    destruct (lessThan (listElementPriority i) (80 # 1)) eqn:E2; simpl.
    2:{ split; [intros [x Hx]; discriminate|]. intros (_ & H & _).
        destruct (H i ltac:(lia)) as (_ & H2 & _). apply lessThan_lt in H2. congruence. }
    destruct (negb (Qle_bool (listItemElementPriority i) (listElementPriority i))) eqn:E3; simpl.
    2:{ split; [intros [x Hx]; discriminate|]. intros (_ & H & _).
        destruct (H i ltac:(lia)) as (H1 & _ & _).
        apply (greaterThan_Finite (listItemElementPriority i)) in H1. simpl in H1. congruence. }
    destruct (lessThan (listItemElementPriority i) (80 # 1)) eqn:E4; simpl.
    2:{ split; [intros [x Hx]; discriminate|]. intros (_ & H & _).
        destruct (H i ltac:(lia)) as (_ & _ & H3). apply lessThan_lt in H3. congruence. }
    rewrite IH. apply lessThan_lt in E2, E4.
    apply (greaterThan_Finite (listItemElementPriority i) (listElementPriority i)) in E3.
    split.
    + intros (Hnext & Hall & Hlink). split; [done|]. split.
      * intros j Hj. destruct (decide (j = i)) as [->|]; [done|]. apply Hall. lia.
      * intros j Hj1 Hj2. destruct (decide (j = i)) as [->|]; [|apply Hlink; lia].
        apply greaterThan_Finite, Hnext. lia.
    + intros (_ & Hall & Hlink). split; [|split].
      * intros Hc. apply greaterThan_Finite, Hlink; lia.
      * intros j Hj. apply Hall. lia.
      * intros j Hj1 Hj2. apply Hlink; lia.
Qed.

(** What the interleaving test decides: it passes exactly when, at every
    indent from 0 to 19, the list element's priority is below the list
    item's and both are below 80, and at every indent from 0 to 18 the list
    item's priority is below that of the list element one indent deeper. *)
Lemma interleaveTest_passes :
  interleaveTest listElementPriority listItemElementPriority = true <->
  (∀ i, i < 20 ->
     (listElementPriority i < listItemElementPriority i)%Q ∧
     (listElementPriority i < 80 # 1)%Q ∧ (listItemElementPriority i < 80 # 1)%Q) ∧
  (∀ i, i < 19 -> (listItemElementPriority i < listElementPriority (S i))%Q).
Proof.
  unfold interleaveTest.
  pose proof (forLoop_interleave 20 0 NegativeInfinity) as H.
  destruct (forLoop (interleaveBody listElementPriority listItemElementPriority) 20 0 NegativeInfinity) as [b|].
  - split; [intros _|done]. destruct (proj1 H ltac:(eauto)) as (_ & Hall & Hlink).
    split; [intros i Hi; apply Hall; lia|intros i Hi; apply Hlink; lia].
  - split; [discriminate|]. intros (Hall & Hlink). exfalso.
    assert (Hs : is_Some (@None Bound)); [|destruct Hs; discriminate].
    apply H. split; [done|]. split; [intros j Hj; apply Hall; lia|].
    intros j _ Hj. apply Hlink. lia.
Qed.

End PriorityTestsFacts.


(** The test does not reach the list element at indent 20: priorities that
    stop growing there pass it. *)
Example interleaveTest_stops_at_19 :
  let listElementPriority := fun i : nat => (Z.of_nat (2 * Nat.min i 19) # 1)%Q in
  let listItemElementPriority := fun i : nat => (Z.of_nat (2 * i + 1) # 1)%Q in
  interleaveTest listElementPriority listItemElementPriority = true ∧
  ¬ (listItemElementPriority 19%nat < listElementPriority 20%nat)%Q.
Proof. split; [reflexivity|]. intros H. vm_compute in H. discriminate. Qed.

(** * Further properties *)

(** ** Positions among the siblings *)

Lemma offsetSize_nonneg (s : Store) (n : Ref) : (0 <= offsetSize s n)%Z.
Proof. unfold offsetSize. destruct (variant (s n)); lia. Qed.

Lemma sumOffsetSizes_take_S (s : Store) (nodes : list Ref) (i : nat) (c : Ref) :
  nodes !! i = Some c ->
  sumOffsetSizes s (take (S i) nodes) = (sumOffsetSizes s (take i nodes) + offsetSize s c)%Z.
Proof.
  revert i. induction nodes as [|x rest IH]; intros i Hi; [discriminate|].
  destruct i as [|i]; simpl in *.
  - injection Hi as ->. destruct rest; simpl; lia.
  - specialize (IH i Hi). simpl in IH. unfold sumOffsetSizes in *. simpl. lia.
Qed.

Lemma sumOffsetSizes_take_mono (s : Store) (nodes : list Ref) (a b : nat) :
  a <= b -> (sumOffsetSizes s (take a nodes) <= sumOffsetSizes s (take b nodes))%Z.
Proof.
  revert a b. induction nodes as [|x rest IH]; intros a b Hab.
  - destruct a, b; simpl; lia.
  - destruct a as [|a], b as [|b]; simpl; try lia.
    + pose proof (offsetSize_nonneg s x).
      assert (0 <= sumOffsetSizes s (take b rest))%Z; [|unfold sumOffsetSizes in *; lia].
      specialize (IH 0 b ltac:(lia)). destruct rest; simpl in IH; exact IH.
    + specialize (IH a b ltac:(lia)). unfold sumOffsetSizes in *. lia.
Qed.

Lemma getNodeIndex_elem (nodes : list Ref) (node : Ref) (pos r : Z) :
  getNodeIndex nodes node pos = Some r -> node ∈ nodes.
Proof.
  revert pos. induction nodes as [|c rest IH]; intros pos H; [discriminate|].
  simpl in H. destruct (Nat.eqb c node) eqn:E.
  - apply Nat.eqb_eq in E. subst. by left.
  - right. by eapply IH.
Qed.

(** Where an attached node stands: the first place of its parent's child
    list that holds it. *)
Lemma attached_position (s : Store) (n p : Ref) :
  parent (s n) = Some p -> n ∈ children (s p) ->
  ∃ i : nat,
    children (s p) !! i = Some n ∧
    (∀ j : nat, j < i -> children (s p) !! j ≠ Some n) ∧
    Node.index s n = Return (Some (Z.of_nat i)) ∧
    Node.startOffset s n = Return (Some (sumOffsetSizes s (take i (children (s p))))).
Proof.
  intros Hp Hin.
  destruct (getNodeIndex_found s _ _ 0%Z 0%Z Hin) as (i & Hi & Hfirst & Hidx & Hoff).
  exists i. unfold Node.index, Node.startOffset, getChildIndex, getChildStartOffset.
  rewrite Hp, Hidx, Hoff. repeat split; try assumption; do 2 f_equal; lia.
Qed.

(** A returned index is the place of an attached node. *)
Lemma index_returned (s : Store) (n p : Ref) (z : Z) :
  parent (s n) = Some p -> Node.index s n = Return (Some z) ->
  ∃ i : nat,
    z = Z.of_nat i ∧ children (s p) !! i = Some n ∧
    (∀ j : nat, j < i -> children (s p) !! j ≠ Some n) ∧
    Node.startOffset s n = Return (Some (sumOffsetSizes s (take i (children (s p))))).
Proof.
  intros Hp Hidx.
  assert (Hin : n ∈ children (s p)).
  { unfold Node.index in Hidx. rewrite Hp in Hidx.
    destruct (getChildIndex s p n) as [r|] eqn:E; [|discriminate].
    by apply getNodeIndex_elem in E. }
  destruct (attached_position s n p Hp Hin) as (i & Hi & Hfirst & Hidx' & Hoff).
  exists i. repeat split; try assumption. congruence.
Qed.

(** [endOffset] of an attached node is its start offset plus its offset
    size; both offsets are non-negative and the end is not before the
    start. *)
Theorem endOffset_attached (s : Store) (n p : Ref) :
  parent (s n) = Some p -> n ∈ children (s p) ->
  ∃ so : Z,
    Node.startOffset s n = Return (Some so) ∧
    Node.endOffset s n = Return (Some (so + offsetSize s n)%Z) ∧
    (0 <= so <= so + offsetSize s n)%Z.
Proof.
  intros Hp Hin.
  destruct (attached_position s n p Hp Hin) as (i & _ & _ & _ & Hoff).
  eexists. split; [exact Hoff|]. split.
  - unfold Node.endOffset. rewrite Hp, Hoff. reflexivity.
  - pose proof (sumOffsetSizes_take_mono s (children (s p)) 0 i ltac:(lia)) as H0.
    rewrite take_0 in H0. pose proof (offsetSize_nonneg s n).
    change (sumOffsetSizes s []) with 0%Z in H0. lia.
Qed.

Lemma endOffset_attached_witness :
  ∃ so : Z,
    Node.startOffset docTree 5 = Return (Some so) ∧
    Node.endOffset docTree 5 = Return (Some (so + offsetSize docTree 5)%Z) ∧
    (0 <= so <= so + offsetSize docTree 5)%Z.
Proof.
  apply (endOffset_attached docTree 5 3).
  - reflexivity.
  - simpl. apply list_elem_of_In. simpl. tauto.
Defined.

(** Siblings do not overlap: when [n] has a smaller index than [m] under
    one parent, [n] ends at or before the offset where [m] starts, and
    exactly there when [m] comes right after [n]. *)
Theorem sibling_offsets_ordered (s : Store) (n m p : Ref) (i j : Z) :
  parent (s n) = Some p -> parent (s m) = Some p ->
  Node.index s n = Return (Some i) -> Node.index s m = Return (Some j) ->
  (i < j)%Z ->
  ∃ eo so : Z,
    Node.endOffset s n = Return (Some eo) ∧
    Node.startOffset s m = Return (Some so) ∧
    (eo <= so)%Z ∧ (j = (i + 1)%Z -> eo = so).
Proof.
  intros Hn Hm Hi Hj Hlt.
  destruct (index_returned s n p i Hn Hi) as (a & -> & Ha & _ & Hsa).
  destruct (index_returned s m p j Hm Hj) as (b & -> & Hb & _ & Hsb).
  exists (sumOffsetSizes s (take (S a) (children (s p)))),
         (sumOffsetSizes s (take b (children (s p)))).
  split; [|split; [exact Hsb|split]].
  - unfold Node.endOffset. rewrite Hn, Hsa. simpl.
    rewrite (sumOffsetSizes_take_S s _ a n Ha). reflexivity.
  - apply sumOffsetSizes_take_mono. lia.
  - intros Heq. replace b with (S a) by lia. reflexivity.
Qed.

Lemma sibling_offsets_ordered_witness :
  ∃ eo so : Z,
    Node.endOffset docTree 4 = Return (Some eo) ∧
    Node.startOffset docTree 5 = Return (Some so) ∧
    (eo <= so)%Z ∧ (1%Z = (0 + 1)%Z -> eo = so).
Proof.
  apply (sibling_offsets_ordered docTree 4 5 3 0%Z 1%Z);
    [reflexivity|reflexivity|reflexivity|reflexivity|lia].
Defined.

(** Under one parent the index tells the children apart: two different
    nodes never get the same index. *)
Theorem index_injective (s : Store) (n m p : Ref) (i : Z) :
  parent (s n) = Some p -> parent (s m) = Some p -> n ≠ m ->
  Node.index s n = Return (Some i) -> Node.index s m ≠ Return (Some i).
Proof.
  intros Hn Hm Hne Hi Hj.
  destruct (index_returned s n p i Hn Hi) as (a & Ea & Ha & _).
  destruct (index_returned s m p i Hm Hj) as (b & Eb & Hb & _).
  assert (a = b) by lia. subst b. congruence.
Qed.

Lemma index_injective_witness : Node.index docTree 5 ≠ Return (Some 0%Z).
Proof.
  apply (index_injective docTree 4 5 3 0%Z); [reflexivity|reflexivity|lia|reflexivity].
Defined.

Lemma nextSibling_at (s : Store) (n p : Ref) (i : nat) :
  parent (s n) = Some p -> Node.index s n = Return (Some (Z.of_nat i)) ->
  Node.nextSibling s n = Return (children (s p) !! S i).
Proof.
  intros Hp Hidx. unfold Node.nextSibling, Node.parentGetChild, getChild. rewrite Hidx. simpl.
  rewrite Hp. destruct (Z.ltb_spec (Z.of_nat i + 1) 0); [lia|].
  replace (Z.to_nat (Z.of_nat i + 1)) with (S i) by lia. reflexivity.
Qed.

Lemma previousSibling_at (s : Store) (n p : Ref) (i : nat) :
  parent (s n) = Some p -> Node.index s n = Return (Some (Z.of_nat i)) ->
  Node.previousSibling s n
  = Return (match i with O => None | S i' => children (s p) !! i' end).
Proof.
  intros Hp Hidx. unfold Node.previousSibling, Node.parentGetChild, getChild.
  rewrite Hidx. simpl. rewrite Hp. destruct i as [|i']; [reflexivity|].
  destruct (Z.ltb_spec (Z.of_nat (S i') - 1) 0); [lia|].
  replace (Z.to_nat (Z.of_nat (S i') - 1)) with i' by lia. reflexivity.
Qed.

Lemma index_thrown_or_attached (s : Store) (n p : Ref) :
  parent (s n) = Some p ->
  n ∈ children (s p) ∨ Node.index s n = Throw Node.notFoundInParent.
Proof.
  intros Hp. unfold Node.index. rewrite Hp.
  destruct (getChildIndex s p n) as [r|] eqn:E; [left|by right].
  by apply getNodeIndex_elem in E.
Qed.

(** The siblings of an attached node standing at place [i]: [nextSibling] is
    the child at place [i + 1], null after the last child; [previousSibling]
    is the child at place [i - 1], null before the first. *)
Theorem siblings_attached (s : Store) (n p : Ref) :
  parent (s n) = Some p -> n ∈ children (s p) ->
  ∃ i : nat,
    children (s p) !! i = Some n ∧
    Node.index s n = Return (Some (Z.of_nat i)) ∧
    Node.nextSibling s n = Return (children (s p) !! S i) ∧
    Node.previousSibling s n
      = Return (match i with O => None | S i' => children (s p) !! i' end) ∧
    (S i = length (children (s p)) -> Node.nextSibling s n = Return None) ∧
    (i = 0 -> Node.previousSibling s n = Return None).
Proof.
  intros Hp Hin.
  destruct (attached_position s n p Hp Hin) as (i & Hi & _ & Hidx & _).
  pose proof (nextSibling_at s n p i Hp Hidx) as Hnext.
  pose proof (previousSibling_at s n p i Hp Hidx) as Hprev.
  exists i. repeat split; try assumption.
  - intros Hlast. rewrite Hnext. f_equal. apply lookup_ge_None. lia.
  - intros ->. exact Hprev.
Qed.

Lemma siblings_attached_witness :
  ∃ i : nat,
    children (docTree 3) !! i = Some 4 ∧
    Node.index docTree 4 = Return (Some (Z.of_nat i)) ∧
    Node.nextSibling docTree 4 = Return (children (docTree 3) !! S i) ∧
    Node.previousSibling docTree 4
      = Return (match i with O => None | S i' => children (docTree 3) !! i' end) ∧
    (S i = length (children (docTree 3)) -> Node.nextSibling docTree 4 = Return None) ∧
    (i = 0 -> Node.previousSibling docTree 4 = Return None).
Proof.
  apply (siblings_attached docTree 4 3).
  - reflexivity.
  - simpl. apply list_elem_of_In. simpl. tauto.
Defined.

(** Next and previous undo each other: under a parent whose child list holds
    no node twice, [m] is the next sibling of [n] exactly when [n] is the
    previous sibling of [m]. *)
Theorem next_previous_sibling (s : Store) (n m p : Ref) :
  parent (s n) = Some p -> parent (s m) = Some p ->
  NoDup (children (s p)) ->
  Node.nextSibling s n = Return (Some m) <-> Node.previousSibling s m = Return (Some n).
Proof.
  intros Hn Hm Hnd. split.
  - intros Hnext.
    destruct (index_thrown_or_attached s n p Hn) as [Hin|Hthrow];
      [|unfold Node.nextSibling in Hnext; rewrite Hthrow in Hnext; discriminate].
    destruct (attached_position s n p Hn Hin) as (i & Hi & _ & Hidx & _).
    rewrite (nextSibling_at s n p i Hn Hidx) in Hnext. injection Hnext as Hmi.
    assert (Hinm : m ∈ children (s p)) by (apply list_elem_of_lookup; eauto).
    destruct (attached_position s m p Hm Hinm) as (j & Hj & _ & Hjdx & _).
    pose proof (NoDup_lookup _ _ _ _ Hnd Hmi Hj) as <-.
    rewrite (previousSibling_at s m p (S i) Hm Hjdx). f_equal. exact Hi.
  - intros Hprev.
    destruct (index_thrown_or_attached s m p Hm) as [Hin|Hthrow];
      [|unfold Node.previousSibling in Hprev; rewrite Hthrow in Hprev; discriminate].
    destruct (attached_position s m p Hm Hin) as (j & Hj & _ & Hjdx & _).
    rewrite (previousSibling_at s m p j Hm Hjdx) in Hprev.
    destruct j as [|j']; [discriminate|]. injection Hprev as Hnj.
    assert (Hinn : n ∈ children (s p)) by (apply list_elem_of_lookup; eauto).
    destruct (attached_position s n p Hn Hinn) as (i & Hi & _ & Hidx & _).
    pose proof (NoDup_lookup _ _ _ _ Hnd Hnj Hi) as <-.
    rewrite (nextSibling_at s n p j' Hn Hidx). f_equal. exact Hj.
Qed.

Lemma next_previous_sibling_witness :
  Node.nextSibling docTree 4 = Return (Some 5) <-> Node.previousSibling docTree 5 = Return (Some 4).
Proof.
  apply (next_previous_sibling docTree 4 5 3); [reflexivity|reflexivity|].
  simpl. apply NoDup_cons. split.
  - intros H. apply list_elem_of_In in H. simpl in H. intuition discriminate.
  - apply NoDup_singleton.
Defined.

(** Without the hypothesis on the child list the round trip fails: in a list
    that holds a node twice, [index] finds the first place only. *)
Example next_previous_needs_NoDup :
  let s : Store := fun r =>
    match r with
    | 0 => mkObject None [] (Element "div" [2; 1; 2])
    | _ => mkObject (Some 0) [] (Element "p" [])
    end in
  Node.nextSibling s 1 = Return (Some 2) ∧ Node.previousSibling s 2 = Return None.
Proof. split; reflexivity. Qed.

(** On a node that its parent's child list does not hold, every accessor
    that goes through [index] or [startOffset] throws the same error, and
    [getPath] throws it as soon as its loop runs once. *)
Theorem broken_accessors_throw (s : Store) (n p : Ref) :
  parent (s n) = Some p -> n ∉ children (s p) ->
  Node.endOffset s n = Throw Node.notFoundInParent ∧
  Node.nextSibling s n = Throw Node.notFoundInParent ∧
  Node.previousSibling s n = Throw Node.notFoundInParent ∧
  (∀ fuel, Node.getPath (S fuel) s n = Throw Node.notFoundInParent).
Proof.
  intros Hp Hnin.
  destruct (getNodeIndex_missing s _ _ 0%Z 0%Z Hnin) as [Hidx Hoff].
  assert (Hi : Node.index s n = Throw Node.notFoundInParent).
  { unfold Node.index, getChildIndex. by rewrite Hp, Hidx. }
  assert (Hs : Node.startOffset s n = Throw Node.notFoundInParent).
  { unfold Node.startOffset, getChildStartOffset. by rewrite Hp, Hoff. }
  unfold Node.endOffset, Node.nextSibling, Node.previousSibling, Node.getPath.
  rewrite Hp, Hi, Hs. repeat split. intros fuel. simpl. by rewrite Hp, Hs.
Qed.

Lemma broken_accessors_throw_witness :
  Node.endOffset brokenTree 1 = Throw Node.notFoundInParent ∧
  Node.nextSibling brokenTree 1 = Throw Node.notFoundInParent ∧
  Node.previousSibling brokenTree 1 = Throw Node.notFoundInParent ∧
  (∀ fuel, Node.getPath (S fuel) brokenTree 1 = Throw Node.notFoundInParent).
Proof.
  apply (broken_accessors_throw brokenTree 1 0).
  - reflexivity.
  - simpl. intros H. apply list_elem_of_In in H. simpl in H. intuition discriminate.
Defined.

(** ** The root and the document *)

Lemma chain_last_lookup (s : Store) (n : Ref) (d k : nat) (x : Ref) :
  Depth s n d -> chain s d n !! k = Some x ->
  last (chain s (d - k) x) = last (chain s d n).
Proof.
  intros H Hk. destruct (chain_lookup s n d k x H Hk) as (Hle & Hx & Hdrop).
  rewrite <- Hdrop. rewrite !last_lookup, lookup_drop, length_drop.
  pose proof (chain_length s n d H) as Hlen. f_equal. lia.
Qed.

(** The root of a node at finite depth has no parent, is its own root, and
    is the root of the node's parent and of every ancestor that
    [getAncestors] lists. *)
Theorem root_shared (s : Store) (n : Ref) (d fuel : nat) :
  Depth s n d -> d < fuel ->
  ∃ r : Ref,
    Node.root fuel s n = Return r ∧
    parent (s r) = None ∧
    Node.root fuel s r = Return r ∧
    (∀ p, parent (s n) = Some p -> Node.root fuel s p = Return r) ∧
    (∀ ancestors x,
       Node.getAncestors fuel s n {| Node.includeSelf := true; Node.parentFirst := false |}
         = Return ancestors ->
       x ∈ ancestors -> Node.root fuel s x = Return r).
Proof.
  intros H Hf.
  destruct (root_loop_chain s n d fuel H ltac:(lia)) as (r & Hr & Hlast & Hroot).
  exists r. split; [exact Hr|]. split; [exact Hroot|]. split; [|split].
  - unfold Node.root. destruct fuel; simpl; by rewrite Hroot.
  - intros p Hp. destruct H as [n Hn|n p' d Hn Hd]; [congruence|].
    assert (p' = p) by congruence. subst p'.
    destruct (root_loop_chain s p d fuel Hd ltac:(lia)) as (r' & Hr' & Hlast' & _).
    simpl in Hlast. rewrite Hn in Hlast.
    assert (Hne : chain s d p ≠ []) by (destruct d; discriminate).
    destruct (chain s d p) as [|c l]; [done|]. simpl in Hlast.
    unfold Node.root. rewrite Hr'. congruence.
  - intros ancestors x Hanc Hx.
    rewrite (getAncestors_chain s _ n d fuel H Hf) in Hanc. simpl in Hanc.
    injection Hanc as <-. rewrite elem_of_reverse in Hx. unfold ancestorChain in Hx.
    apply list_elem_of_lookup in Hx as [k Hk].
    destruct (chain_lookup s n d k x H Hk) as (Hle & Hdx & _).
    destruct (root_loop_chain s x (d - k) fuel Hdx ltac:(lia)) as (r' & Hr' & Hlast' & _).
    rewrite (chain_last_lookup s n d k x H Hk) in Hlast'.
    unfold Node.root. rewrite Hr'. congruence.
Qed.

Lemma root_shared_witness :
  ∃ r : Ref,
    Node.root 3 docTree 5 = Return r ∧
    parent (docTree r) = None ∧
    Node.root 3 docTree r = Return r ∧
    (∀ p, parent (docTree 5) = Some p -> Node.root 3 docTree p = Return r) ∧
    (∀ ancestors x,
       Node.getAncestors 3 docTree 5 {| Node.includeSelf := true; Node.parentFirst := false |}
         = Return ancestors ->
       x ∈ ancestors -> Node.root 3 docTree x = Return r).
Proof.
  apply (root_shared docTree 5 2 3).
  - apply (Depth_child docTree 5 3 1); [reflexivity|].
    apply (Depth_child docTree 3 0 0); [reflexivity|].
    apply Depth_root. reflexivity.
  - lia.
Defined.

Lemma root_loop_returns (s : Store) (fuel : nat) (n r : Ref) :
  Node.root_loop fuel s n = Return r -> ∃ d, d <= fuel ∧ Depth s n d.
Proof.
  revert n. induction fuel as [|fuel IH]; intros n H; simpl in H.
  - destruct (parent (s n)) eqn:E; [discriminate|]. exists 0. split; [lia|by constructor].
  - destruct (parent (s n)) as [p|] eqn:E.
    + destruct (IH p H) as (d & Hd & Hdepth). exists (S d). split; [lia|].
      by econstructor.
    + exists 0. split; [lia|by constructor].
Qed.

Lemma getAncestors_loop_returns (s : Store) (options : Node.AncestorsOptions)
    (fuel : nat) (n : Ref) (acc l : list Ref) :
  Node.getAncestors_loop fuel s options (Some n) acc = Return l -> ∃ d, Depth s n d.
Proof.
  revert n acc. induction fuel as [|fuel IH]; intros n acc H; simpl in H; [discriminate|].
  destruct (parent (s n)) as [p|] eqn:E.
  - destruct (IH p _ H) as (d & Hd). exists (S d). by econstructor.
  - exists 0. by constructor.
Qed.

Lemma getAncestors_loop_no_throw (s : Store) (options : Node.AncestorsOptions)
    (fuel : nat) (start : option Ref) (acc : list Ref) (e : Error) :
  Node.getAncestors_loop fuel s options start acc ≠ Throw e.
Proof.
  revert start acc. induction fuel as [|fuel IH]; intros [p|] acc; simpl; try discriminate.
  apply IH.
Qed.

(** The walks up the parent chain return exactly for the nodes at finite
    depth, and they never throw: on a chain that never reaches a parentless
    node, [root] and [getAncestors] run out of any fuel. *)
Theorem walks_return_iff_depth (s : Store) (n : Ref) (options : Node.AncestorsOptions) :
  ((∃ fuel r, Node.root fuel s n = Return r) <-> ∃ d, Depth s n d) ∧
  ((∃ fuel l, Node.getAncestors fuel s n options = Return l) <-> ∃ d, Depth s n d) ∧
  (∀ fuel e, Node.root fuel s n ≠ Throw e) ∧
  (∀ fuel e, Node.getAncestors fuel s n options ≠ Throw e) ∧
  ((∀ d, ¬ Depth s n d) ->
   ∀ fuel, Node.root fuel s n = OutOfFuel ∧ Node.getAncestors fuel s n options = OutOfFuel).
Proof.
  assert (Hroot : (∃ fuel r, Node.root fuel s n = Return r) <-> ∃ d, Depth s n d).
  { split.
    - intros (fuel & r & H). destruct (root_loop_returns s fuel n r H) as (d & _ & Hd). eauto.
    - intros (d & Hd).
      destruct (root_loop_chain s n d (S d) Hd ltac:(lia)) as (r & Hr & _). eauto. }
  assert (Hanc : (∃ fuel l, Node.getAncestors fuel s n options = Return l)
                 <-> ∃ d, Depth s n d).
  { split.
    - intros (fuel & l & H). unfold Node.getAncestors in H.
      destruct (Node.includeSelf options).
      + by eapply getAncestors_loop_returns.
      + destruct (parent (s n)) as [p|] eqn:E.
        * destruct (getAncestors_loop_returns s options fuel p [] l H) as (d & Hd).
          exists (S d). by econstructor.
        * exists 0. by constructor.
    - intros (d & Hd). exists (S d). eexists.
      apply (getAncestors_chain s options n d (S d) Hd). lia. }
  assert (Hrt : ∀ fuel e, Node.root fuel s n ≠ Throw e).
  { intros fuel e. unfold Node.root. clear Hroot Hanc. revert n.
    induction fuel as [|fuel IH]; intros n; simpl; destruct (parent (s n)); try discriminate.
    apply IH. }
  assert (Hat : ∀ fuel e, Node.getAncestors fuel s n options ≠ Throw e).
  { intros fuel e. apply getAncestors_loop_no_throw. }
  split; [exact Hroot|]. split; [exact Hanc|]. split; [exact Hrt|]. split; [exact Hat|].
  intros Hno fuel. split.
  - destruct (Node.root fuel s n) as [r| e|] eqn:E; [|by apply Hrt in E|reflexivity].
    exfalso. destruct (proj1 Hroot ltac:(eauto)) as (d & Hd). by apply (Hno d).
  - destruct (Node.getAncestors fuel s n options) as [l| e|] eqn:E;
      [|by apply Hat in E|reflexivity].
    exfalso. destruct (proj1 Hanc ltac:(eauto)) as (d & Hd). by apply (Hno d).
Qed.

Lemma cyclicTree_no_depth (n : Ref) (d : nat) : n < 3 -> ¬ Depth cyclicTree n d.
Proof.
  revert n. induction d as [|d IH]; intros n Hn H; inversion H as [? Hp|? p ? Hp Hd]; subst.
  - destruct n as [|[|[|n]]]; [discriminate Hp..|lia].
  - destruct n as [|[|[|n]]]; [| | |lia]; simpl in Hp; injection Hp as <-;
      refine (IH _ _ Hd); lia.
Qed.

(** The document of a node that has a parent is the [document] property of
    its root, so two such nodes under one root have the same document. *)
Theorem document_of_root (s : Store) (n m : Ref) (dn dm fuel : nat) :
  Depth s n (S dn) -> Depth s m (S dm) -> S dn < fuel -> S dm < fuel ->
  ∃ rn rm : Ref,
    Node.root fuel s n = Return rn ∧
    Node.root fuel s m = Return rm ∧
    Node.document fuel s n = Return (documentOfRoot s rn) ∧
    Node.document fuel s m = Return (documentOfRoot s rm) ∧
    (rn = rm -> Node.document fuel s n = Node.document fuel s m).
Proof.
  assert (Hdoc : ∀ x dx, Depth s x (S dx) -> S dx < fuel ->
            ∃ r, Node.root fuel s x = Return r ∧
                 Node.document fuel s x = Return (documentOfRoot s r)).
  { intros x dx Hx Hf.
    destruct (root_loop_chain s x (S dx) fuel Hx ltac:(lia)) as (r & Hr & _ & Hroot).
    exists r. split; [exact Hr|]. unfold Node.document, Node.root. rewrite Hr. simpl.
    destruct (Nat.eqb r x) eqn:E; [|reflexivity].
    apply Nat.eqb_eq in E. subst r. inversion Hx; congruence. }
  intros Hn Hm Hfn Hfm.
  destruct (Hdoc n dn Hn Hfn) as (rn & Hrn & Hdn).
  destruct (Hdoc m dm Hm Hfm) as (rm & Hrm & Hdm).
  exists rn, rm. repeat split; try assumption. intros ->. congruence.
Qed.

Lemma document_of_root_witness :
  ∃ rn rm : Ref,
    Node.root 3 docTree 5 = Return rn ∧
    Node.root 3 docTree 1 = Return rm ∧
    Node.document 3 docTree 5 = Return (documentOfRoot docTree rn) ∧
    Node.document 3 docTree 1 = Return (documentOfRoot docTree rm) ∧
    (rn = rm -> Node.document 3 docTree 5 = Node.document 3 docTree 1).
Proof.
  apply (document_of_root docTree 5 1 1 0 3).
  - apply (Depth_child docTree 5 3 1); [reflexivity|].
    apply (Depth_child docTree 3 0 0); [reflexivity|].
    apply Depth_root. reflexivity.
  - apply (Depth_child docTree 1 0 0); [reflexivity|].
    apply Depth_root. reflexivity.
  - lia.
  - lia.
Defined.

Lemma walks_return_iff_depth_witness :
  Node.root 7 cyclicTree 2 = OutOfFuel ∧
  Node.getAncestors 7 cyclicTree 2 Node.defaultOptions = OutOfFuel.
Proof.
  apply (proj2 (proj2 (proj2 (proj2
           (walks_return_iff_depth cyclicTree 2 Node.defaultOptions))))).
  intros d. apply cyclicTree_no_depth. lia.
Defined.

(** ** Clones *)

(** [clone] gives a node with no parent and the attributes of the original,
    entry for entry. *)
Theorem clone_attributes (s : Store) (n : Ref) :
  Map_ok (_attrs (s n)) ->
  parent (Node.clone s n) = None ∧
  _attrs (Node.clone s n) = _attrs (s n) ∧
  (∀ k, Map_has (_attrs (Node.clone s n)) k = Node.hasAttribute s n k) ∧
  (∀ k, Map_get (_attrs (Node.clone s n)) k = Node.getAttribute s n k).
Proof.
  intros Hok.
  assert (H : _attrs (Node.clone s n) = _attrs (s n)).
  { unfold Node.clone, Node.constructor, toMap. simpl. by apply Map_new_entries. }
  unfold Node.hasAttribute, Node.getAttribute. rewrite H. repeat split.
Qed.

Lemma clone_attributes_witness :
  parent (Node.clone docTree 5) = None ∧
  _attrs (Node.clone docTree 5) = _attrs (docTree 5) ∧
  (∀ k, Map_has (_attrs (Node.clone docTree 5)) k = Node.hasAttribute docTree 5 k) ∧
  (∀ k, Map_get (_attrs (Node.clone docTree 5)) k = Node.getAttribute docTree 5 k).
Proof.
  apply (clone_attributes docTree 5).
  unfold Map_ok. simpl. apply NoDup_cons. split.
  - intros H. apply list_elem_of_In in H. simpl in H. intuition discriminate.
  - apply NoDup_singleton.
Defined.

(** ** Paths and ancestors, level by level *)

Lemma getPath_belowRoot (s : Store) (n : Ref) (d fuel : nat) :
  Depth s n d -> d <= fuel ->
  Node.getPath fuel s n = startOffsets s (belowRoot s d n).
Proof.
  intros H Hf. unfold Node.getPath. rewrite (getPath_loop_chain s n d fuel [] H Hf).
  destruct (startOffsets s (belowRoot s d n)); simpl; try reflexivity.
  by rewrite app_nil_r.
Qed.

(** The path of a node is the path of its parent with the node's own start
    offset added at the end; it is returned exactly when both are. *)
Theorem getPath_extends_parent (s : Store) (n p : Ref) (d fuel : nat)
    (path : list (option Z)) :
  parent (s n) = Some p -> Depth s p d -> S d <= fuel ->
  Node.getPath fuel s n = Return path <->
  ∃ (parentPath : list (option Z)) (so : option Z),
    Node.getPath fuel s p = Return parentPath ∧
    Node.startOffset s n = Return so ∧
    path = parentPath ++ [so].
Proof.
  intros Hp Hd Hf.
  assert (Hn : Depth s n (S d)) by (econstructor; eassumption).
  rewrite (getPath_belowRoot s n (S d) fuel Hn Hf).
  rewrite (getPath_belowRoot s p d fuel Hd ltac:(lia)).
  unfold belowRoot. simpl. rewrite Hp, reverse_cons. fold (belowRoot s d p).
  rewrite startOffsets_snoc.
  destruct (Node.startOffset s n) as [so|e|]; simpl.
  - destruct (startOffsets s (belowRoot s d p)) as [pp|e|]; simpl.
    + split.
      * intros H. injection H as <-. eauto.
      * intros (pp' & so' & H1 & H2 & ->). congruence.
    + split; [discriminate|]. intros (pp' & so' & H1 & _). discriminate.
    + split; [discriminate|]. intros (pp' & so' & H1 & _). discriminate.
  - split; [discriminate|]. intros (pp' & so' & _ & H2 & _). discriminate.
  - split; [discriminate|]. intros (pp' & so' & _ & H2 & _). discriminate.
Qed.

Lemma getPath_extends_parent_witness :
  Node.getPath 3 docTree 5 = Return [Some 1%Z; Some 3%Z] <->
  ∃ (parentPath : list (option Z)) (so : option Z),
    Node.getPath 3 docTree 3 = Return parentPath ∧
    Node.startOffset docTree 5 = Return so ∧
    [Some 1%Z; Some 3%Z] = parentPath ++ [so].
Proof.
  apply (getPath_extends_parent docTree 5 3 1 3).
  - reflexivity.
  - apply (Depth_child docTree 3 0 0); [reflexivity|].
    apply Depth_root. reflexivity.
  - lia.
Defined.

Lemma chain_NoDup (s : Store) (n : Ref) (d : nat) : Depth s n d -> NoDup (chain s d n).
Proof.
  induction 1 as [n Hn|n p d Hn Hd IH]; simpl.
  - apply NoDup_singleton.
  - rewrite Hn. apply NoDup_cons. split; [by apply chain_no_self|exact IH].
Qed.

(** The four ways to ask for the ancestors give one chain: [parentFirst]
    reverses it, [includeSelf] adds the node at the node's end; no node
    stands in it twice, and without the node itself it is the chain of the
    parent with the parent included. *)
Theorem getAncestors_options (s : Store) (n : Ref) (d fuel : nat) :
  Depth s n d -> d < fuel ->
  ∃ A : list Ref,
    Node.getAncestors fuel s n {| Node.includeSelf := false; Node.parentFirst := false |}
      = Return A ∧
    Node.getAncestors fuel s n {| Node.includeSelf := true; Node.parentFirst := false |}
      = Return (A ++ [n]) ∧
    Node.getAncestors fuel s n {| Node.includeSelf := false; Node.parentFirst := true |}
      = Return (reverse A) ∧
    Node.getAncestors fuel s n {| Node.includeSelf := true; Node.parentFirst := true |}
      = Return (n :: reverse A) ∧
    NoDup (A ++ [n]) ∧
    (∀ p, parent (s n) = Some p ->
       Node.getAncestors fuel s p {| Node.includeSelf := true; Node.parentFirst := false |}
         = Return A).
Proof.
  intros H Hf. exists (reverse (tail (chain s d n))).
  rewrite !(getAncestors_chain s _ n d fuel H Hf). simpl. unfold ancestorChain.
  rewrite reverse_involutive.
  assert (Hc : chain s d n = n :: tail (chain s d n)) by (destruct d; reflexivity).
  repeat split.
  - rewrite Hc at 1. by rewrite reverse_cons.
  - by rewrite <- Hc.
  - rewrite <- reverse_cons, <- Hc. rewrite reverse_Permutation. by apply chain_NoDup.
  - intros p Hp. destruct H as [n Hn|n p' d Hn Hd]; [congruence|].
    assert (p' = p) by congruence. subst p'.
    rewrite (getAncestors_chain s _ p d fuel Hd ltac:(lia)). simpl. unfold ancestorChain.
    by rewrite Hn.
Qed.

Lemma getAncestors_options_witness :
  ∃ A : list Ref,
    Node.getAncestors 3 docTree 5 {| Node.includeSelf := false; Node.parentFirst := false |}
      = Return A ∧
    Node.getAncestors 3 docTree 5 {| Node.includeSelf := true; Node.parentFirst := false |}
      = Return (A ++ [5]) ∧
    Node.getAncestors 3 docTree 5 {| Node.includeSelf := false; Node.parentFirst := true |}
      = Return (reverse A) ∧
    Node.getAncestors 3 docTree 5 {| Node.includeSelf := true; Node.parentFirst := true |}
      = Return (5 :: reverse A) ∧
    NoDup (A ++ [5]) ∧
    (∀ p, parent (docTree 5) = Some p ->
       Node.getAncestors 3 docTree p {| Node.includeSelf := true; Node.parentFirst := false |}
         = Return A).
Proof.
  apply (getAncestors_options docTree 5 2 3).
  - apply (Depth_child docTree 5 3 1); [reflexivity|].
    apply (Depth_child docTree 3 0 0); [reflexivity|].
    apply Depth_root. reflexivity.
  - lia.
Defined.

(** ** More on common ancestors *)

Lemma sameEntry_sym (A B : list Ref) (i : nat) : Node.sameEntry A B i = Node.sameEntry B A i.
Proof.
  unfold Node.sameEntry. destruct (A !! i), (B !! i); try reflexivity. apply Nat.eqb_sym.
Qed.

Lemma commonPrefix_sym (A B : list Ref) :
  Node.commonPrefix_loop (length A) A B 0 = Node.commonPrefix_loop (length B) B A 0.
Proof.
  destruct (commonPrefix_loop_exit (length A) A B 0) as (_ & Hs1 & He1);
    [lia|intros j Hj; lia|].
  destruct (commonPrefix_loop_exit (length B) B A 0) as (_ & Hs2 & He2);
    [lia|intros j Hj; lia|].
  set (i := Node.commonPrefix_loop (length A) A B 0) in *.
  set (k := Node.commonPrefix_loop (length B) B A 0) in *.
  destruct (Nat.lt_trichotomy i k) as [Hlt|[Heq|Hgt]]; [|exact Heq|].
  - specialize (Hs2 i Hlt). rewrite sameEntry_sym in Hs2. congruence.
  - specialize (Hs1 k Hgt). rewrite sameEntry_sym in Hs1. congruence.
Qed.

(** [getCommonAncestor] does not depend on which of the two nodes it is
    called on, whatever the options and the shape of the tree. *)
Theorem getCommonAncestor_sym (fuel : nat) (s : Store) (a b : Ref)
    (options : Node.AncestorsOptions) :
  Node.getCommonAncestor fuel s a b options = Node.getCommonAncestor fuel s b a options.
Proof.
  unfold Node.getCommonAncestor.
  destruct (Node.getAncestors fuel s a options) as [A|e|] eqn:EA;
    destruct (Node.getAncestors fuel s b options) as [B|e'|] eqn:EB; simpl;
    try reflexivity;
    try (exfalso; unfold Node.getAncestors in *;
         first [by eapply getAncestors_loop_no_throw in EA
               |by eapply getAncestors_loop_no_throw in EB]).
  f_equal. rewrite (commonPrefix_sym A B).
  destruct (commonPrefix_loop_exit (length B) B A 0) as (_ & Hs & _);
    [lia|intros j Hj; lia|].
  destruct (Node.commonPrefix_loop (length B) B A 0) as [|i']; [reflexivity|].
  destruct (proj1 (sameEntry_true B A i') (Hs i' ltac:(lia))) as (c & HB & HA). congruence.
Qed.

Lemma commonPrefix_prefix (A C : list Ref) :
  Node.commonPrefix_loop (length A) A (A ++ C) 0 = length A.
Proof.
  destruct (commonPrefix_loop_exit (length A) A (A ++ C) 0) as (_ & Hs & He);
    [lia|intros j Hj; lia|].
  set (i := Node.commonPrefix_loop (length A) A (A ++ C) 0) in *.
  destruct (Nat.lt_trichotomy i (length A)) as [Hlt|[Heq|Hgt]]; [|exact Heq|].
  - exfalso. destruct (lookup_lt_is_Some_2 A i Hlt) as [c Hc].
    assert (Node.sameEntry A (A ++ C) i = true); [|congruence].
    apply sameEntry_true. exists c. split; [exact Hc|]. by apply lookup_app_l_Some.
  - exfalso. destruct (proj1 (sameEntry_true _ _ _) (Hs (length A) Hgt)) as (c & Hc & _).
    apply lookup_lt_Some in Hc. lia.
Qed.

(** When one ancestor array begins the other, the answer is its last
    entry. *)
Lemma getCommonAncestor_prefix (fuel : nat) (s : Store) (a b : Ref)
    (options : Node.AncestorsOptions) (A C : list Ref) :
  Node.getAncestors fuel s a options = Return A ->
  Node.getAncestors fuel s b options = Return (A ++ C) ->
  Node.getCommonAncestor fuel s a b options = Return (last A).
Proof.
  intros HA HB. unfold Node.getCommonAncestor. rewrite HA, HB. simpl.
  rewrite commonPrefix_prefix, last_lookup. by destruct A.
Qed.

Lemma getCommonAncestor_prefix_swapped (fuel : nat) (s : Store) (a b : Ref)
    (options : Node.AncestorsOptions) (A C : list Ref) :
  Node.getAncestors fuel s a options = Return A ->
  Node.getAncestors fuel s b options = Return (A ++ C) ->
  Node.getCommonAncestor fuel s b a options = Return (last A).
Proof.
  intros HA HB. unfold Node.getCommonAncestor. rewrite HA, HB. simpl.
  rewrite (commonPrefix_sym (A ++ C) A), commonPrefix_prefix, last_lookup.
  destruct (length A) as [|i'] eqn:E; [by destruct A|]. simpl.
  f_equal. apply lookup_app_l. lia.
Qed.

(** A node and itself, a node and one of its ancestors: without
    [includeSelf] the common ancestor of a node with itself is its parent
    (null for a root), with [includeSelf] it is the node; and with
    [includeSelf] the common ancestor of a node and a node it lies inside,
    called either way round, is the outer one. *)
Theorem getCommonAncestor_inside (s : Store) (a b : Ref) (da db fuel : nat) :
  Depth s a da -> Depth s b db -> da < fuel -> db < fuel ->
  Node.getCommonAncestor fuel s a a {| Node.includeSelf := false; Node.parentFirst := false |}
    = Return (parent (s a)) ∧
  Node.getCommonAncestor fuel s a a {| Node.includeSelf := true; Node.parentFirst := false |}
    = Return (Some a) ∧
  (∀ ancestors,
     Node.getAncestors fuel s b {| Node.includeSelf := true; Node.parentFirst := false |}
       = Return ancestors ->
     a ∈ ancestors ->
     Node.getCommonAncestor fuel s a b {| Node.includeSelf := true; Node.parentFirst := false |}
       = Return (Some a) ∧
     Node.getCommonAncestor fuel s b a {| Node.includeSelf := true; Node.parentFirst := false |}
       = Return (Some a)).
Proof.
  intros Ha Hb Hfa Hfb.
  pose proof (getAncestors_chain s {| Node.includeSelf := false; Node.parentFirst := false |}
                a da fuel Ha Hfa) as HA0.
  pose proof (getAncestors_chain s {| Node.includeSelf := true; Node.parentFirst := false |}
                a da fuel Ha Hfa) as HA1.
  simpl in HA0, HA1. unfold ancestorChain in HA0, HA1.
  split; [|split].
  - rewrite (getCommonAncestor_prefix fuel s a a _ _ [] HA0) by (by rewrite app_nil_r).
    f_equal. rewrite last_reverse.
    destruct Ha as [a Hn|a p d Hn Hd]; simpl; rewrite Hn; [reflexivity|].
    apply chain_head.
  - rewrite (getCommonAncestor_prefix fuel s a a _ _ [] HA1) by (by rewrite app_nil_r).
    f_equal. rewrite last_reverse. apply chain_head.
  - intros ancestors HB Hin.
    rewrite (getAncestors_chain s _ b db fuel Hb Hfb) in HB. simpl in HB.
    unfold ancestorChain in HB. injection HB as <-.
    apply list_elem_of_lookup in Hin as [j Hj].
    destruct (RootFirst_chain s b db Hb j a Hj) as [Hdj Htake].
    pose proof (Depth_fun s a j da Hdj Ha) as ->.
    assert (Hab : Node.getCommonAncestor fuel s a b
                    {| Node.includeSelf := true; Node.parentFirst := false |}
                  = Return (Some a)).
    { rewrite (getCommonAncestor_prefix fuel s a b _ (reverse (chain s da a))
                 (drop (S da) (reverse (chain s db b))) HA1).
      - f_equal. rewrite last_reverse. apply chain_head.
      - rewrite (getAncestors_chain s _ b db fuel Hb Hfb). simpl. unfold ancestorChain.
        f_equal. rewrite <- Htake. by rewrite take_drop. }
    split; [exact Hab|].
    rewrite (getCommonAncestor_prefix_swapped fuel s a b _ (reverse (chain s da a))
               (drop (S da) (reverse (chain s db b))) HA1).
    + f_equal. rewrite last_reverse. apply chain_head.
    + rewrite (getAncestors_chain s _ b db fuel Hb Hfb). simpl. unfold ancestorChain.
      f_equal. rewrite <- Htake. by rewrite take_drop.
Qed.

Lemma getCommonAncestor_inside_witness :
  Node.getCommonAncestor 3 docTree 3 3 {| Node.includeSelf := false; Node.parentFirst := false |}
    = Return (parent (docTree 3)) ∧
  Node.getCommonAncestor 3 docTree 3 3 {| Node.includeSelf := true; Node.parentFirst := false |}
    = Return (Some 3) ∧
  (∀ ancestors,
     Node.getAncestors 3 docTree 5 {| Node.includeSelf := true; Node.parentFirst := false |}
       = Return ancestors ->
     3 ∈ ancestors ->
     Node.getCommonAncestor 3 docTree 3 5 {| Node.includeSelf := true; Node.parentFirst := false |}
       = Return (Some 3) ∧
     Node.getCommonAncestor 3 docTree 5 3 {| Node.includeSelf := true; Node.parentFirst := false |}
       = Return (Some 3)).
Proof.
  apply (getCommonAncestor_inside docTree 3 5 1 2 3).
  - apply (Depth_child docTree 3 0 0); [reflexivity|].
    apply Depth_root. reflexivity.
  - apply (Depth_child docTree 5 3 1); [reflexivity|].
    apply (Depth_child docTree 3 0 0); [reflexivity|].
    apply Depth_root. reflexivity.
  - lia.
  - lia.
Defined.

(** ** Changing attributes *)

Lemma Map_has_set_ne (m : JSMap) (key key' : string) (value : Value) :
  key' ≠ key -> Map_has (Map_set m key value) key' = Map_has m key'.
Proof.
  intros Hne. induction m as [|[k v] rest IH]; simpl.
  - destruct (String.eqb key key') eqn:E; [|reflexivity].
    apply String.eqb_eq in E. congruence.
  - destruct (String.eqb k key) eqn:E; simpl.
    + apply String.eqb_eq in E. subst k. reflexivity.
    + by rewrite IH.
Qed.

Lemma Map_get_set_ne (m : JSMap) (key key' : string) (value : Value) :
  key' ≠ key -> Map_get (Map_set m key value) key' = Map_get m key'.
Proof.
  intros Hne. induction m as [|[k v] rest IH]; simpl.
  - destruct (String.eqb key key') eqn:E; [|reflexivity].
    apply String.eqb_eq in E. congruence.
  - destruct (String.eqb k key) eqn:E; simpl.
    + apply String.eqb_eq in E. subst k.
      destruct (String.eqb key key') eqn:E'; [|reflexivity].
      apply String.eqb_eq in E'. congruence.
    + by rewrite IH.
Qed.

Lemma Map_has_delete (m : JSMap) (key : string) :
  Map_ok m -> Map_has (Map_delete m key) key = false.
Proof.
  unfold Map_ok. induction m as [|[k v] rest IH]; simpl; [reflexivity|].
  intros Hm. apply NoDup_cons in Hm as [Hk Hrest].
  destruct (String.eqb k key) eqn:E; simpl.
  - apply String.eqb_eq in E. subst k.
    apply not_true_is_false. intros H. by apply Map_has_keys in H.
  - rewrite E. by apply IH.
Qed.

Lemma Map_has_delete_ne (m : JSMap) (key key' : string) :
  key' ≠ key -> Map_has (Map_delete m key) key' = Map_has m key'.
Proof.
  intros Hne. induction m as [|[k v] rest IH]; simpl; [reflexivity|].
  destruct (String.eqb k key) eqn:E; simpl; [|by rewrite IH].
  apply String.eqb_eq in E. subst k.
  destruct (String.eqb key key') eqn:E'; [|reflexivity].
  apply String.eqb_eq in E'. congruence.
Qed.

Lemma Map_get_delete_ne (m : JSMap) (key key' : string) :
  key' ≠ key -> Map_get (Map_delete m key) key' = Map_get m key'.
Proof.
  intros Hne. induction m as [|[k v] rest IH]; simpl; [reflexivity|].
  destruct (String.eqb k key) eqn:E; simpl; [|by rewrite IH].
  apply String.eqb_eq in E. subst k.
  destruct (String.eqb key key') eqn:E'; [|reflexivity].
  apply String.eqb_eq in E'. congruence.
Qed.

Lemma Map_delete_absent (m : JSMap) (key : string) :
  Map_has m key = false -> Map_delete m key = m.
Proof.
  induction m as [|[k v] rest IH]; simpl; [reflexivity|].
  destruct (String.eqb k key); [discriminate|]. intros H. by rewrite IH.
Qed.

Lemma Map_delete_set_fresh (m : JSMap) (key : string) (value : Value) :
  Map_has m key = false -> Map_delete (Map_set m key value) key = m.
Proof.
  induction m as [|[k v] rest IH]; simpl.
  - by rewrite String.eqb_refl.
  - destruct (String.eqb k key) eqn:E; [discriminate|]. simpl. rewrite E.
    intros H. by rewrite IH.
Qed.

Lemma setAttrs_shape (s : Store) (n : Ref) (m : JSMap) : SameShape s (Node.setAttrs s n m).
Proof.
  intros r. unfold Node.setAttrs. destruct (Nat.eqb r n) eqn:E; [|done].
  apply Nat.eqb_eq in E. by subst.
Qed.

Lemma setAttrs_other (s : Store) (n r : Ref) (m : JSMap) :
  r ≠ n -> Node.setAttrs s n m r = s r.
Proof. intros Hne. unfold Node.setAttrs. by rewrite (proj2 (Nat.eqb_neq r n) Hne). Qed.

Section Shape.

Variables s s' : Store.
Hypothesis Hshape : SameShape s s'.

Lemma shape_parent (r : Ref) : parent (s' r) = parent (s r).
Proof. apply Hshape. Qed.

Lemma shape_children (r : Ref) : children (s' r) = children (s r).
Proof. unfold children. by rewrite (proj2 (Hshape r)). Qed.

Lemma shape_offsetSize (r : Ref) : offsetSize s' r = offsetSize s r.
Proof. unfold offsetSize. by rewrite (proj2 (Hshape r)). Qed.

Lemma shape_index (x : Ref) : Node.index s' x = Node.index s x.
Proof.
  unfold Node.index, getChildIndex. rewrite shape_parent.
  destruct (parent (s x)); [|reflexivity]. by rewrite shape_children.
Qed.

Lemma shape_startOffset (x : Ref) : Node.startOffset s' x = Node.startOffset s x.
Proof.
  unfold Node.startOffset, getChildStartOffset. rewrite shape_parent.
  destruct (parent (s x)) as [p|]; [|reflexivity]. rewrite shape_children.
  assert (H : ∀ nodes sum, getNodeStartOffset s' nodes x sum = getNodeStartOffset s nodes x sum).
  { induction nodes as [|c rest IH]; intros sum; simpl; [reflexivity|].
    by rewrite IH, shape_offsetSize. }
  by rewrite H.
Qed.

Lemma shape_getPath (fuel : nat) (x : Ref) : Node.getPath fuel s' x = Node.getPath fuel s x.
Proof.
  unfold Node.getPath. generalize (@nil (option Z)). revert x.
  induction fuel as [|fuel IH]; intros x path; simpl; rewrite shape_parent.
  - reflexivity.
  - destruct (parent (s x)); [|reflexivity]. rewrite shape_startOffset.
    destruct (Node.startOffset s x); simpl; [apply IH|reflexivity|reflexivity].
Qed.

Lemma shape_getAncestors (fuel : nat) (x : Ref) (options : Node.AncestorsOptions) :
  Node.getAncestors fuel s' x options = Node.getAncestors fuel s x options.
Proof.
  unfold Node.getAncestors. rewrite shape_parent.
  generalize (if Node.includeSelf options then Some x else parent (s x)).
  generalize (@nil nat).
  induction fuel as [|fuel IH]; intros acc [p|]; simpl; try reflexivity.
  rewrite shape_parent. apply IH.
Qed.

End Shape.

(** [_setAttribute] touches one key of one node: the other keys of the node
    and every other object stay as they were, and no position accessor
    ([index], [startOffset], [getPath], [getAncestors]) of any node changes
    its answer. *)
Theorem setAttribute_frame (s : Store) (n : Ref) (k : string) (v : Value) :
  (∀ k', k' ≠ k ->
     Node.hasAttribute (Node._setAttribute s n k v) n k' = Node.hasAttribute s n k' ∧
     Node.getAttribute (Node._setAttribute s n k v) n k' = Node.getAttribute s n k') ∧
  (∀ m, m ≠ n -> Node._setAttribute s n k v m = s m) ∧
  (∀ x, Node.index (Node._setAttribute s n k v) x = Node.index s x ∧
        Node.startOffset (Node._setAttribute s n k v) x = Node.startOffset s x) ∧
  (∀ fuel x options,
     Node.getPath fuel (Node._setAttribute s n k v) x = Node.getPath fuel s x ∧
     Node.getAncestors fuel (Node._setAttribute s n k v) x options
       = Node.getAncestors fuel s x options).
Proof.
  pose proof (setAttrs_shape s n (Map_set (_attrs (s n)) k v)) as Hshape.
  unfold Node._setAttribute. repeat split.
  - unfold Node.hasAttribute. rewrite setAttrs_self. by apply Map_has_set_ne.
  - unfold Node.getAttribute. rewrite setAttrs_self. by apply Map_get_set_ne.
  - intros m Hm. by apply setAttrs_other.
  - by apply shape_index.
  - by apply shape_startOffset.
  - by apply shape_getPath.
  - by apply shape_getAncestors.
Qed.

(** [_setAttribute] keeps the order of the keys: a key already set stays
    where it is, a new key goes to the end; the map still holds no key
    twice, and [toJSON] then has the [attributes] property. *)
Theorem setAttribute_keys (s : Store) (n : Ref) (k : string) (v : Value) :
  Map_ok (_attrs (s n)) ->
  Node.getAttributeKeys (Node._setAttribute s n k v) n
    = (if Node.hasAttribute s n k
       then Node.getAttributeKeys s n
       else Node.getAttributeKeys s n ++ [k]) ∧
  Map_ok (_attrs (Node._setAttribute s n k v n)) ∧
  is_Some (Node.toJSON (Node._setAttribute s n k v) n !! "attributes").
Proof.
  intros Hok. unfold Node.getAttributeKeys, Node.hasAttribute, Node._setAttribute, Map_keys,
    Node.toJSON.
  rewrite !setAttrs_self. split; [|split].
  - destruct (Map_has (_attrs (s n)) k) eqn:E.
    + apply Map_set_keys. by apply Map_has_keys.
    + rewrite Map_set_fresh, fmap_app; [reflexivity|].
      intros Hin. apply Map_has_keys in Hin. congruence.
  - by apply Map_set_ok.
  - assert (Hsize : Nat.eqb (Map_size (Map_set (_attrs (s n)) k v)) 0 = false).
    { apply Nat.eqb_neq. unfold Map_size.
      destruct (_attrs (s n)) as [|[k0 v0] rest]; simpl; [lia|].
      destruct (String.eqb k0 k); simpl; lia. }
    rewrite Hsize, lookup_insert_eq. eauto.
Qed.

Lemma setAttribute_keys_witness :
  Node.getAttributeKeys (Node._setAttribute docTree 5 "bold" (VBool false)) 5
    = (if Node.hasAttribute docTree 5 "bold"
       then Node.getAttributeKeys docTree 5
       else Node.getAttributeKeys docTree 5 ++ ["bold"]) ∧
  Map_ok (_attrs (Node._setAttribute docTree 5 "bold" (VBool false) 5)) ∧
  is_Some (Node.toJSON (Node._setAttribute docTree 5 "bold" (VBool false)) 5 !! "attributes").
Proof.
  apply (setAttribute_keys docTree 5 "bold" (VBool false)).
  unfold Map_ok. simpl. apply NoDup_cons. split.
  - intros H. apply list_elem_of_In in H. simpl in H. intuition discriminate.
  - apply NoDup_singleton.
Defined.

(** [_removeAttribute] answers whether the key was set; afterwards the key
    is not set and reads as undefined, the other keys are as before, and
    removing a key that was not set changes no attribute. *)
Theorem removeAttribute_effect (s : Store) (n : Ref) (k : string) :
  Map_ok (_attrs (s n)) ->
  (Node._removeAttribute s n k).1 = Node.hasAttribute s n k ∧
  Node.hasAttribute (Node._removeAttribute s n k).2 n k = false ∧
  Node.getAttribute (Node._removeAttribute s n k).2 n k = VUndefined ∧
  (∀ k', k' ≠ k ->
     Node.hasAttribute (Node._removeAttribute s n k).2 n k' = Node.hasAttribute s n k' ∧
     Node.getAttribute (Node._removeAttribute s n k).2 n k' = Node.getAttribute s n k') ∧
  (Node.hasAttribute s n k = false ->
   Node.getAttributes (Node._removeAttribute s n k).2 n = Node.getAttributes s n).
Proof.
  intros Hok. unfold Node._removeAttribute, Node.hasAttribute, Node.getAttribute,
    Node.getAttributes, Map_entries. simpl. rewrite !setAttrs_self.
  split; [reflexivity|]. split; [by apply Map_has_delete|].
  split; [by apply Map_get_absent, Map_has_delete|]. split.
  - intros k' Hk'. split; [by apply Map_has_delete_ne|by apply Map_get_delete_ne].
  - apply Map_delete_absent.
Qed.

Lemma removeAttribute_effect_witness :
  (Node._removeAttribute docTree 5 "lang").1 = Node.hasAttribute docTree 5 "lang" ∧
  Node.hasAttribute (Node._removeAttribute docTree 5 "lang").2 5 "lang" = false ∧
  Node.getAttribute (Node._removeAttribute docTree 5 "lang").2 5 "lang" = VUndefined ∧
  (∀ k', k' ≠ "lang" ->
     Node.hasAttribute (Node._removeAttribute docTree 5 "lang").2 5 k'
       = Node.hasAttribute docTree 5 k' ∧
     Node.getAttribute (Node._removeAttribute docTree 5 "lang").2 5 k'
       = Node.getAttribute docTree 5 k') ∧
  (Node.hasAttribute docTree 5 "lang" = false ->
   Node.getAttributes (Node._removeAttribute docTree 5 "lang").2 5
     = Node.getAttributes docTree 5).
Proof.
  apply (removeAttribute_effect docTree 5 "lang").
  unfold Map_ok. simpl. apply NoDup_cons. split.
  - intros H. apply list_elem_of_In in H. simpl in H. intuition discriminate.
  - apply NoDup_singleton.
Defined.

(** Setting a key that was not set and removing it again gives the store
    back, object for object. *)
Theorem set_remove_roundtrip (s : Store) (n : Ref) (k : string) (v : Value) :
  Node.hasAttribute s n k = false ->
  (Node._removeAttribute (Node._setAttribute s n k v) n k).1 = true ∧
  ∀ r, (Node._removeAttribute (Node._setAttribute s n k v) n k).2 r = s r.
Proof.
  intros Hfresh. unfold Node._removeAttribute, Node._setAttribute. simpl.
  rewrite !setAttrs_self. split; [apply Map_has_set|]. intros r.
  unfold Node.hasAttribute in Hfresh. rewrite (Map_delete_set_fresh _ k v Hfresh).
  unfold Node.setAttrs. destruct (Nat.eqb r n) eqn:E; [|reflexivity].
  apply Nat.eqb_eq in E. subst r. rewrite Nat.eqb_refl. simpl. by destruct (s n).
Qed.

Lemma set_remove_roundtrip_witness :
  (Node._removeAttribute (Node._setAttribute docTree 5 "size" (VNumber 12)) 5 "size").1 = true ∧
  ∀ r, (Node._removeAttribute (Node._setAttribute docTree 5 "size" (VNumber 12)) 5 "size").2 r
       = docTree r.
Proof.
  apply (set_remove_roundtrip docTree 5 "size" (VNumber 12)). reflexivity.
Defined.

(** Over a key that was set the round trip loses the old value. *)
Example set_remove_over_a_set_key :
  Node.getAttribute docTree 5 "bold" = VBool true ∧
  Node.hasAttribute
    (Node._removeAttribute (Node._setAttribute docTree 5 "bold" (VBool false)) 5 "bold").2
    5 "bold" = false.
Proof. split; reflexivity. Qed.

(** [_clearAttributes] leaves the node with no attribute: no key is set,
    every key reads as undefined, and [toJSON] gives the empty object. The
    other objects, and the node's place in the tree, are untouched. *)
Theorem clearAttributes_empty (s : Store) (n : Ref) :
  Node.getAttributes (Node._clearAttributes s n) n = [] ∧
  (∀ k, Node.hasAttribute (Node._clearAttributes s n) n k = false ∧
        Node.getAttribute (Node._clearAttributes s n) n k = VUndefined) ∧
  Node.toJSON (Node._clearAttributes s n) n = ∅ ∧
  (∀ m, m ≠ n -> Node._clearAttributes s n m = s m) ∧
  (∀ x, Node.index (Node._clearAttributes s n) x = Node.index s x ∧
        Node.startOffset (Node._clearAttributes s n) x = Node.startOffset s x).
Proof.
  pose proof (setAttrs_shape s n []) as Hshape.
  unfold Node._clearAttributes, Node.getAttributes, Node.hasAttribute, Node.getAttribute,
    Node.toJSON. rewrite !setAttrs_self. repeat split.
  - intros m Hm. by apply setAttrs_other.
  - by apply shape_index.
  - by apply shape_startOffset.
Qed.

Lemma foldl_set_has (pairs : list (string * Value)) (acc : JSMap) (k : string) :
  Map_has (foldl (fun m kv => Map_set m kv.1 kv.2) acc pairs) k = true <->
  Map_has acc k = true ∨ k ∈ pairs.*1.
Proof.
  revert acc. induction pairs as [|[k0 v0] rest IH]; intros acc; simpl.
  - split; [auto|]. intros [H|H]; [exact H|inversion H].
  - rewrite IH, elem_of_cons. destruct (decide (k = k0)) as [->|Hne].
    + rewrite Map_has_set. tauto.
    + rewrite Map_has_set_ne by done. tauto.
Qed.

Lemma foldl_set_get (pairs : list (string * Value)) (acc : JSMap) (k : string) :
  k ∉ pairs.*1 ->
  Map_get (foldl (fun m kv => Map_set m kv.1 kv.2) acc pairs) k = Map_get acc k.
Proof.
  revert acc. induction pairs as [|[k0 v0] rest IH]; intros acc Hnin; simpl; [reflexivity|].
  simpl in Hnin. apply not_elem_of_cons in Hnin as [Hne Hnin].
  rewrite IH by done. by apply Map_get_set_ne.
Qed.

Lemma foldl_set_ok (pairs : list (string * Value)) (acc : JSMap) :
  Map_ok acc -> Map_ok (foldl (fun m kv => Map_set m kv.1 kv.2) acc pairs).
Proof.
  revert acc. induction pairs as [|[k0 v0] rest IH]; intros acc Hacc; simpl; [exact Hacc|].
  apply IH. by apply Map_set_ok.
Qed.

(** [_setAttributesTo] replaces the attributes by those of the pairs it is
    given, whatever was set before: a key is set exactly when a pair has it,
    and it reads as the value of the last pair that has it; with no argument
    the node is left without attributes. *)
Theorem setAttributesTo_last_wins (s : Store) (n : Ref) (pairs : list (string * Value)) :
  Map_ok (_attrs (Node._setAttributesTo s n (Some pairs) n)) ∧
  (∀ k, Node.hasAttribute (Node._setAttributesTo s n (Some pairs)) n k = true <-> k ∈ pairs.*1) ∧
  (∀ before k v after,
     pairs = before ++ (k, v) :: after -> k ∉ after.*1 ->
     Node.getAttribute (Node._setAttributesTo s n (Some pairs)) n k = v) ∧
  Node.getAttributes (Node._setAttributesTo s n None) n = [].
Proof.
  unfold Node._setAttributesTo, Node.hasAttribute, Node.getAttribute, Node.getAttributes,
    toMap, Map_new. rewrite !setAttrs_self. split; [|split; [|split]].
  - apply foldl_set_ok, NoDup_nil_2.
  - intros k. rewrite foldl_set_has. simpl. split; [intros [H|H]; [discriminate|exact H]|auto].
  - intros before k v after -> Hnin.
    rewrite foldl_app. simpl. rewrite foldl_set_get by done. apply Map_get_set.
  - reflexivity.
Qed.

Example setAttributesTo_repeated_key :
  Node.getAttributes
    (Node._setAttributesTo docTree 5 (Some [("a", VNumber 1); ("b", VNumber 2); ("a", VNumber 3)]))
    5
  = [("a", VNumber 3); ("b", VNumber 2)].
Proof. reflexivity. Qed.

(** ** Removal *)

(** [_remove] on a node with no parent fails with a TypeError, before its
    index is asked for; on a node its parent does not hold it throws the
    error of [index] and the parent's removal is not reached; otherwise the
    parent is asked to remove what stands at the node's index. *)
Theorem remove_cases (_removeChildren : Store -> Ref -> option Z -> Outcome Store)
    (s : Store) (n : Ref) :
  (parent (s n) = None -> ∃ message, _remove _removeChildren s n = Throw (TypeError message)) ∧
  (∀ p, parent (s n) = Some p -> n ∉ children (s p) ->
     _remove _removeChildren s n = Throw Node.notFoundInParent) ∧
  (∀ p, parent (s n) = Some p -> n ∈ children (s p) ->
     ∃ i : nat, children (s p) !! i = Some n ∧
       _remove _removeChildren s n = _removeChildren s p (Some (Z.of_nat i))).
Proof.
  unfold _remove. repeat split.
  - intros ->. eauto.
  - intros p Hp Hnin. rewrite Hp.
    destruct (getNodeIndex_missing s _ _ 0%Z 0%Z Hnin) as [Hidx _].
    unfold Node.index, getChildIndex. by rewrite Hp, Hidx.
  - intros p Hp Hin. rewrite Hp.
    destruct (attached_position s n p Hp Hin) as (i & Hi & _ & Hidx & _).
    exists i. split; [exact Hi|]. by rewrite Hidx.
Qed.

(** ** What the monotonicity tests decide *)

Section MonotonicityTestsFacts.

Variable priority : nat -> Q.

Lemma forLoop_increasing (count i : nat) (previousPriority : Bound) :
  is_Some (forLoop (increasingBody priority) count i previousPriority) <->
  (0 < count -> greaterThan (priority i) previousPriority = true) ∧
  (∀ j, i <= j < i + count -> (priority j < 80 # 1)%Q) ∧
  (∀ j, i <= j -> S j < i + count -> (priority j < priority (S j))%Q).
Proof.
  revert i previousPriority. induction count as [|count IH]; intros i prev; simpl.
  - split; [|eauto]. intros _. repeat split; intros; lia.
  - unfold increasingBody.
    destruct (greaterThan (priority i) prev) eqn:E1; simpl.
    2:{ split; [intros [x Hx]; discriminate|]. intros (H & _). specialize (H ltac:(lia)).
        discriminate. }
    destruct (lessThan (priority i) (80 # 1)) eqn:E2; simpl.
    2:{ split; [intros [x Hx]; discriminate|]. intros (_ & H & _).
        specialize (H i ltac:(lia)). apply lessThan_lt in H. congruence. }
    rewrite IH. apply lessThan_lt in E2. split.
    + intros (Hnext & Hall & Hlink). split; [done|]. split.
      * intros j Hj. destruct (decide (j = i)) as [->|]; [done|]. apply Hall. lia.
      * intros j Hj1 Hj2. destruct (decide (j = i)) as [->|]; [|apply Hlink; lia].
        apply greaterThan_Finite, Hnext. lia.
    + intros (_ & Hall & Hlink). split; [|split].
      * intros Hc. apply greaterThan_Finite, Hlink; lia.
      * intros j Hj. apply Hall. lia.
      * intros j Hj1 Hj2. apply Hlink; lia.
Qed.

(** A monotonicity test passes exactly when the priorities at the indents 0
    to 19 are all below 80 and each is below the next. *)
Lemma increasingTest_passes :
  increasingTest priority = true <->
  (∀ i, i < 20 -> (priority i < 80 # 1)%Q) ∧
  (∀ i, i < 19 -> (priority i < priority (S i))%Q).
Proof.
  unfold increasingTest.
  pose proof (forLoop_increasing 20 0 NegativeInfinity) as H.
  destruct (forLoop (increasingBody priority) 20 0 NegativeInfinity) as [b|].
  - split; [intros _|done]. destruct (proj1 H ltac:(eauto)) as (_ & Hall & Hlink).
    split; [intros i Hi; apply Hall; lia|intros i Hi; apply Hlink; lia].
  - split; [discriminate|]. intros (Hall & Hlink). exfalso.
    assert (Hs : is_Some (@None Bound)); [|destruct Hs; discriminate].
    apply H. split; [done|]. split; [intros j Hj; apply Hall; lia|].
    intros j _ Hj. apply Hlink. lia.
Qed.

End MonotonicityTestsFacts.

(** Priorities that pass the interleaving test pass the monotonicity test,
    the list elements' and the list items' alike. *)
Theorem interleaveTest_implies_increasing (listElementPriority listItemElementPriority : nat -> Q) :
  interleaveTest listElementPriority listItemElementPriority = true ->
  increasingTest listElementPriority = true ∧ increasingTest listItemElementPriority = true.
Proof.
  intros H. unfold interleaveTest in H.
  pose proof (forLoop_interleave listElementPriority listItemElementPriority
                20 0 NegativeInfinity) as Hloop.
  destruct (forLoop (interleaveBody listElementPriority listItemElementPriority)
              20 0 NegativeInfinity) as [b|]; [|discriminate].
  destruct (proj1 Hloop ltac:(eauto)) as (_ & Hall & Hlink).
  assert (Hpass : ∀ priority,
            (∀ i, i < 20 -> (priority i < 80 # 1)%Q) ->
            (∀ i, i < 19 -> (priority i < priority (S i))%Q) ->
            increasingTest priority = true).
  { intros priority Hb Hi. unfold increasingTest.
    pose proof (forLoop_increasing priority 20 0 NegativeInfinity) as Hinc.
    destruct (forLoop (increasingBody priority) 20 0 NegativeInfinity); [reflexivity|].
    assert (Hs : is_Some (@None Bound)); [|destruct Hs; discriminate].
    apply Hinc. split; [done|]. split; [intros j Hj; apply Hb; lia|].
    intros j _ Hj. apply Hi. lia. }
  split; apply Hpass.
  - intros i Hi. apply (Hall i). lia.
  - intros i Hi. apply Qlt_trans with (listItemElementPriority i).
    + apply (Hall i). lia.
    + apply (Hlink i); lia.
  - intros i Hi. apply (Hall i). lia.
  - intros i Hi. apply Qlt_trans with (listElementPriority (S i)).
    + apply (Hlink i); lia.
    + apply (Hall (S i)). lia.
Qed.

Lemma interleaveTest_implies_increasing_witness :
  increasingTest (fun i : nat => (Z.of_nat (2 * i) # 1)%Q) = true ∧
  increasingTest (fun i : nat => (Z.of_nat (2 * i + 1) # 1)%Q) = true.
Proof.
  apply (interleaveTest_implies_increasing
           (fun i : nat => (Z.of_nat (2 * i) # 1)%Q)
           (fun i : nat => (Z.of_nat (2 * i + 1) # 1)%Q)).
  reflexivity.
Defined.

(** The converse fails: two increasing runs need not interleave. *)
Example increasing_without_interleaving :
  let listElementPriority := fun i : nat => (Z.of_nat i # 1)%Q in
  let listItemElementPriority := fun i : nat => (Z.of_nat i # 1)%Q in
  increasingTest listElementPriority = true ∧
  increasingTest listItemElementPriority = true ∧
  interleaveTest listElementPriority listItemElementPriority = false.
Proof. repeat split; reflexivity. Qed.

(** ** Instances *)

Lemma getCommonAncestor_sym_witness :
  Node.getCommonAncestor 3 docTree 2 5 Node.defaultOptions
  = Node.getCommonAncestor 3 docTree 5 2 Node.defaultOptions.
Proof.
  apply (getCommonAncestor_sym 3 docTree 2 5 Node.defaultOptions).
Defined.

Lemma setAttribute_frame_witness :
  Node.hasAttribute (Node._setAttribute docTree 5 "bold" VNull) 5 "lang"
    = Node.hasAttribute docTree 5 "lang" ∧
  Node.getAttribute (Node._setAttribute docTree 5 "bold" VNull) 5 "lang"
    = Node.getAttribute docTree 5 "lang".
Proof.
  apply (proj1 (setAttribute_frame docTree 5 "bold" VNull) "lang"). discriminate.
Defined.

Lemma setAttributesTo_last_wins_witness :
  Node.getAttribute
    (Node._setAttributesTo docTree 5 (Some [("a", VNumber 1); ("b", VNumber 2); ("a", VNumber 3)]))
    5 "a" = VNumber 3.
Proof.
  apply (proj1 (proj2 (proj2 (setAttributesTo_last_wins docTree 5
                  [("a", VNumber 1); ("b", VNumber 2); ("a", VNumber 3)])))
           [("a", VNumber 1); ("b", VNumber 2)] "a" (VNumber 3) []).
  - reflexivity.
  - simpl. apply not_elem_of_nil.
Defined.

Lemma remove_cases_witness :
  ∃ message, _remove (fun s _ _ => Return s) docTree 0 = Throw (TypeError message).
Proof.
  apply (proj1 (remove_cases (fun s _ _ => Return s) docTree 0)). reflexivity.
Defined.

Lemma interleaveTest_passes_witness :
  ((Z.of_nat (2 * 3 + 1) # 1) < (Z.of_nat (2 * 4) # 1))%Q.
Proof.
  apply (proj2 (proj1 (interleaveTest_passes
                         (fun i : nat => (Z.of_nat (2 * i) # 1)%Q)
                         (fun i : nat => (Z.of_nat (2 * i + 1) # 1)%Q)) eq_refl) 3).
  lia.
Defined.

Lemma increasingTest_passes_witness :
  ((Z.of_nat (2 * 3) # 1) < (Z.of_nat (2 * 4) # 1))%Q.
Proof.
  apply (proj2 (proj1 (increasingTest_passes (fun i : nat => (Z.of_nat (2 * i) # 1)%Q))
                  eq_refl) 3).
  lia.
Defined.
